(** * Playlist-Extracter: the export routine of [main.py]

    A shallow embedding of [extract_playlist_tracks] and of the library
    calls it is made of (Python [str] operations, the Spotify client, the
    [csv] reader and writer of the default dialect, one file of the file
    system), followed by the properties of the export that the design
    document of the project states.

    Conventions.
    - A Python [str] and the text of a file are values of [string].
    - The set [existing_entries] is a [gset string].
    - The only file the function touches is [playlist_export.csv]; the
      file system is the state of that file, [None] when it is absent.
    - Resource limits of the interpreter (memory, [csv.field_size_limit])
      are not part of the model. *)

From Stdlib Require Import Ascii String ZArith DecimalString.
From Stdlib Require DecimalPos DecimalZ.
From stdpp Require Import base list strings gmap.

Local Open Scope Z_scope.
Local Open Scope nat_scope.

(** ** Python string operations *)

Module PyStr.

(** [sub in s] *)
Fixpoint contains (sub s : string) : bool :=
  String.prefix sub s ||
  match s with
  | "" => false
  | String _ s' => contains sub s'
  end.

(** [s.split(sep)] for a non-empty separator: a left-to-right scan for
    non-overlapping occurrences.  [skip] counts the characters of an
    occurrence of [sep] that are still to be passed over, [cur] is the
    piece being collected, in reverse. *)
Fixpoint split_go (sep : string) (skip : nat) (cur : string) (s : string)
  : list string :=
  match s with
  | "" => [String.rev cur]
  | String c s' =>
      match skip with
      | S k => split_go sep k cur s'
      | O =>
          if String.prefix sep s
          then String.rev cur :: split_go sep (String.length sep - 1) "" s'
          else split_go sep 0 (String c cur) s'
      end
  end.

Definition split (sep s : string) : list string := split_go sep 0 "" s.

(** [sep.join(l)] *)
Fixpoint join (sep : string) (l : list string) : string :=
  match l with
  | [] => ""
  | [x] => x
  | x :: l' => x +:+ sep +:+ join sep l'
  end.

(** [str(n)] for an [int] *)
Definition str_int (n : Z) : string := NilZero.string_of_int (Z.to_int n).

End PyStr.

(** ** The [csv] module, default ([excel]) dialect

    [delimiter=','], the double quote as [quotechar], [doublequote=True],
    no [escapechar], [skipinitialspace=False], [lineterminator='\r\n'],
    [quoting=QUOTE_MINIMAL], [strict=False]; the reader and the writer
    follow [Modules/_csv.c] of CPython 3.11. *)

Module Csv.

Definition delimiter : ascii := ","%char.
Definition quotechar : ascii := "034"%char.
Definition CR : ascii := "013"%char.
Definition LF : ascii := "010"%char.
Definition lineterminator : string := String CR (String LF "").

Definition is_crlf (c : ascii) : bool := (c =? LF)%char || (c =? CR)%char.

(** *** Writer *)

(** The characters that make [join_append_data] switch [quoted] on. *)
Definition special (c : ascii) : bool :=
  (c =? delimiter)%char || (c =? quotechar)%char || is_crlf c.

Fixpoint must_quote (field : string) : bool :=
  match field with
  | "" => false
  | String c s => special c || must_quote s
  end.

(** The copy of the field data, each [quotechar] doubled. *)
Fixpoint field_data (field : string) : string :=
  match field with
  | "" => ""
  | String c s =>
      if (c =? quotechar)%char
      then String quotechar (String quotechar (field_data s))
      else String c (field_data s)
  end.

Definition join_append (field : string) (quoted : bool) : string :=
  if quoted || must_quote field
  then String quotechar (field_data field +:+ String quotechar "")
  else field_data field.

(** [writer.writerow(row)]: the text handed to [file.write].  A record made
    of one empty field is written quoted. *)
Definition writerow (row : list string) : string :=
  match row with
  | [ "" ] => join_append "" true
  | _ => PyStr.join "," ((λ f, join_append f false) <$> row)
  end +:+ lineterminator.

(** *** Reader *)

Inductive ParserState :=
  | START_RECORD | START_FIELD | IN_FIELD
  | IN_QUOTED_FIELD | QUOTE_IN_QUOTED_FIELD | EAT_CRNL.

Record ReaderObj := {
  state : ParserState;
  field : string;          (* the characters of the field being read *)
  fields : list string     (* the fields of the record read so far *)
}.

(** What [parse_process_char] is fed with: a character of the line, or the
    end-of-line marker that follows each line. *)
Inductive input := Char (c : ascii) | EOL.

Definition parse_reset : ReaderObj :=
  {| state := START_RECORD; field := ""; fields := [] |}.

Definition set_state (st : ParserState) (self : ReaderObj) : ReaderObj :=
  {| state := st; field := field self; fields := fields self |}.

Definition parse_add_char (self : ReaderObj) (c : ascii) : ReaderObj :=
  {| state := state self; field := field self +:+ String c "";
     fields := fields self |}.

Definition parse_save_field (self : ReaderObj) : ReaderObj :=
  {| state := state self; field := ""; fields := fields self ++ [field self] |}.

(** [case START_FIELD] of [parse_process_char]. *)
Definition process_start_field (self : ReaderObj) (c : input) : ReaderObj :=
  match c with
  | EOL => set_state START_RECORD (parse_save_field self)
  | Char ch =>
      if is_crlf ch then set_state EAT_CRNL (parse_save_field self)
      else if (ch =? quotechar)%char then set_state IN_QUOTED_FIELD self
      else if (ch =? delimiter)%char
           then set_state START_FIELD (parse_save_field self)
      else set_state IN_FIELD (parse_add_char self ch)
  end.

(** [parse_process_char]; [None] is the [csv.Error] raised for a new-line
    character seen in an unquoted field. *)
Definition parse_process_char (self : ReaderObj) (c : input)
  : option ReaderObj :=
  match state self with
  | START_RECORD =>
      match c with
      | EOL => Some self
      | Char ch =>
          if is_crlf ch then Some (set_state EAT_CRNL self)
          else Some (process_start_field self c)
      end
  | START_FIELD => Some (process_start_field self c)
  | IN_FIELD =>
      match c with
      | EOL => Some (set_state START_RECORD (parse_save_field self))
      | Char ch =>
          if is_crlf ch then Some (set_state EAT_CRNL (parse_save_field self))
          else if (ch =? delimiter)%char
               then Some (set_state START_FIELD (parse_save_field self))
          else Some (parse_add_char self ch)
      end
  | IN_QUOTED_FIELD =>
      match c with
      | EOL => Some self
      | Char ch =>
          if (ch =? quotechar)%char
          then Some (set_state QUOTE_IN_QUOTED_FIELD self)
          else Some (parse_add_char self ch)
      end
  | QUOTE_IN_QUOTED_FIELD =>
      match c with
      | EOL => Some (set_state START_RECORD (parse_save_field self))
      | Char ch =>
          if (ch =? quotechar)%char
          then Some (set_state IN_QUOTED_FIELD (parse_add_char self ch))
          else if (ch =? delimiter)%char
               then Some (set_state START_FIELD (parse_save_field self))
          else if is_crlf ch
               then Some (set_state EAT_CRNL (parse_save_field self))
          else Some (set_state IN_FIELD (parse_add_char self ch))
      end
  | EAT_CRNL =>
      match c with
      | EOL => Some (set_state START_RECORD self)
      | Char ch => if is_crlf ch then Some self else None
      end
  end.

(** The characters of one line, in order. *)
Fixpoint process_line (self : ReaderObj) (line : string) : option ReaderObj :=
  match line with
  | "" => Some self
  | String c l => self' ← parse_process_char self (Char c); process_line self' l
  end.

(** What [Reader_iternext] does when the lines have run out: an unfinished
    record ([field_len != 0 || state == IN_QUOTED_FIELD]) is closed and
    returned, and the iteration stops. *)
Definition unfinished (self : ReaderObj) : bool :=
  negb (String.eqb (field self) "")
  || match state self with IN_QUOTED_FIELD => true | _ => false end.

Definition at_end (self : ReaderObj) : option (list (list string)) :=
  if unfinished self then Some [fields (parse_save_field self)] else Some [].

(** The records [Reader_iternext] yields, call after call, from the lines
    that are left; [self] is [parse_reset] at the start of a call and the
    state of the unfinished record inside one. *)
Fixpoint reader_rows (self : ReaderObj) (lines : list string)
  : option (list (list string)) :=
  match lines with
  | [] => at_end self
  | line :: rest =>
      self1 ← process_line self line;
      self2 ← parse_process_char self1 EOL;
      match state self2 with
      | START_RECORD => (fields self2 ::.) <$> reader_rows parse_reset rest
      | _ => reader_rows self2 rest
      end
  end.

End Csv.

(** ** Text files opened with [newline=''] *)

Module TextIO.

(** Whether the character [c], followed by the text [s'], is the last one of
    its line: lines end at ['\n'], ['\r'] or ['\r\n']. *)
Definition ends_line (c : ascii) (s' : string) : bool :=
  (c =? Csv.LF)%char
  || ((c =? Csv.CR)%char && negb (String.prefix (String Csv.LF "") s')).

(** Iterating over a file opened for reading with [newline='']: the lines
    keep their ending.  [cur] is the line being collected. *)
Fixpoint lines_go (cur : string) (s : string) : list string :=
  match s with
  | "" => match cur with "" => [] | _ => [cur] end
  | String c s' =>
      if ends_line c s' then (cur +:+ String c "") :: lines_go "" s'
      else lines_go (cur +:+ String c "") s'
  end.

Definition readlines (text : string) : list string := lines_go "" text.

End TextIO.

(** [list(csv.reader(f))] for a file [f] of the given text. *)
Definition csv_reader (text : string) : option (list (list string)) :=
  Csv.reader_rows Csv.parse_reset (TextIO.readlines text).

(** ** Exceptions *)

Inductive exn :=
  | KeyError (key : string)
  | CsvError.

Inductive result (A : Type) :=
  | Ok (a : A)
  | Raise (e : exn).
Arguments Ok {A} a.
Arguments Raise {A} e.

Definition bind {A B} (m : result A) (k : A → result B) : result B :=
  match m with
  | Ok a => k a
  | Raise e => Raise e
  end.

Notation "'let*' x := m 'in' k" := (bind m (λ x, k))
  (at level 10, x name, m at level 100, k at level 200).

(** [d[key]] on a dictionary whose entry for [key] is [v]: [None] when the
    key is not there. *)
Definition getitem {A} (key : string) (v : option A) : result A :=
  match v with
  | Some a => Ok a
  | None => Raise (KeyError key)
  end.

Fixpoint mapM {A B} (f : A → result B) (l : list A) : result (list B) :=
  match l with
  | [] => Ok []
  | x :: l' => let* y := f x in let* ys := mapM f l' in Ok (y :: ys)
  end.

(** ** The Spotify client

    The dictionaries the Web API answers with, restricted to the keys the
    export reads.  A key may be missing ([None]); the value under
    ['track'] may moreover be Python's [None]. *)

Record artist := Artist { artist_name : option string }.

Record track := Track {
  track_name : option string;
  track_artists : option (list artist)
}.

Record item := Item { item_track : option (option track) }.

(** What [sp.playlist_tracks] and then [sp.next] answer for a playlist: the
    pages in turn, until a page without [next], or until the client raises
    [SpotifyException]. *)
Inductive paging :=
  | LastPage (items : list item)
  | Page (items : list item) (next : paging)
  | SpotifyException (msg : string).

Definition client := string → paging.

(** ** The export *)

Definition filename : string := "playlist_export.csv".

(** The state of the file [filename]: its text, or [None]. *)
Definition file := option string.

(** What the function prints before it returns. *)
Inductive outcome :=
  | InvalidUrl                        (* Error: Invalid Spotify playlist URL *)
  | MalformedId                       (* Error: Could not parse playlist ID *)
  | FetchError (msg : string)         (* Error fetching playlist tracks *)
  | Exported (new total : nat)        (* Exported .. / Total unique tracks .. *)
  | Uncaught (e : exn).               (* a traceback *)

(** Lines 66-75: the outcome is [inl] of the message printed, or [inr] of
    the playlist id. *)
Definition playlist_id_of (playlist_url : string) : outcome + string :=
  if negb (PyStr.contains "open.spotify.com/playlist/" playlist_url)
  then inl InvalidUrl
  else
    match PyStr.split "playlist/" playlist_url !! 1 with
    | None => inl MalformedId
    | Some rest =>
        match PyStr.split "?" rest !! 0 with
        | None => inl MalformedId
        | Some playlist_id => inr playlist_id
        end
    end.

(** Lines 78-89: [tracks], or the message of the exception caught. *)
Fixpoint fetch_tracks (results : paging) : string + list item :=
  match results with
  | LastPage items => inr items
  | Page items next =>
      match fetch_tracks next with
      | inr more => inr (items ++ more)
      | inl msg => inl msg
      end
  | SpotifyException msg => inl msg
  end.

(** Lines 96-99. *)
Definition describe (t : track) : result string :=
  let* name := getitem "name" (track_name t) in
  let* track_artists := getitem "artists" (track_artists t) in
  let* names := mapM (λ a, getitem "name" (artist_name a)) track_artists in
  Ok (name +:+ " - " +:+ PyStr.join ", " names).

(** Lines 91-99. *)
Fixpoint track_data_raw (tracks : list item) : result (list string) :=
  match tracks with
  | [] => Ok []
  | it :: rest =>
      let* t := getitem "track" (item_track it) in
      match t with
      | None => track_data_raw rest
      | Some t =>
          let* d := describe t in
          let* ds := track_data_raw rest in
          Ok (d :: ds)
      end
  end.

(** Line 105. *)
Definition file_exists (f : file) : bool :=
  match f with
  | Some text => negb (String.eqb text "")
  | None => false
  end.

(** Lines 112-114, from the rows that follow the header. *)
Fixpoint add_rows (existing_entries : gset string) (rows : list (list string))
  : gset string :=
  match rows with
  | [] => existing_entries
  | row :: rows' =>
      match row !! 1 with
      | Some t => add_rows ({[ t ]} ∪ existing_entries) rows'
      | None => add_rows existing_entries rows'
      end
  end.

(** Lines 102-114. *)
Definition read_ledger (f : file) : result (gset string) :=
  if file_exists f then
    match csv_reader (default "" f) with
    | Some rows => Ok (add_rows ∅ (tail rows))
    | None => Raise CsvError
    end
  else Ok ∅.

(** Lines 116-120: the state of the loop is the pair of
    [new_unique_tracks] and [existing_entries]. *)
Definition merge_step (acc : list string * gset string) (entry : string)
  : list string * gset string :=
  if decide (entry ∈ acc.2) then acc
  else (acc.1 ++ [entry], {[ entry ]} ∪ acc.2).

Definition merge (track_data_raw : list string) (existing_entries : gset string)
  : list string * gset string :=
  foldl merge_step ([], existing_entries) track_data_raw.

(** Lines 131-135. *)
Definition start_index (file_exists : bool) (existing_entries : gset string)
    (new_unique_tracks : list string) : Z :=
  if file_exists
  then (Z.of_nat (size existing_entries)
        - Z.of_nat (length new_unique_tracks) + 1)%Z
  else 1%Z.

(** Lines 137-138: the rows written for [new_unique_tracks]. *)
Definition new_rows (start : Z) (new_unique_tracks : list string)
  : list (list string) :=
  imap (λ idx entry, [PyStr.str_int (start + Z.of_nat idx); entry])
       new_unique_tracks.

Definition writerows (rows : list (list string)) : string :=
  foldr (λ row text, Csv.writerow row +:+ text) "" rows.

(** Lines 124-138: the file after it was opened in mode ['a'] and written
    to. *)
Definition append_ledger (f : file) (existing_entries : gset string)
    (new_unique_tracks : list string) : file :=
  let header := if file_exists f then [] else [["Index"; "Track"]] in
  let start := start_index (file_exists f) existing_entries new_unique_tracks in
  Some (default "" f
        +:+ writerows (header ++ new_rows start new_unique_tracks)).

(** Lines 101-141, from the descriptors of the tracks fetched. *)
Definition export_entries (raw : list string) (f : file) : outcome * file :=
  match read_ledger f with
  | Raise e => (Uncaught e, f)
  | Ok existing_entries =>
      let '(new_unique_tracks, existing_entries) :=
        merge raw existing_entries in
      (Exported (length new_unique_tracks) (size existing_entries),
       append_ledger f existing_entries new_unique_tracks)
  end.

(** Lines 91-141, from the tracks fetched. *)
Definition export_tracks (tracks : list item) (f : file) : outcome * file :=
  match track_data_raw tracks with
  | Raise e => (Uncaught e, f)
  | Ok raw => export_entries raw f
  end.

(** [extract_playlist_tracks(playlist_url)], run with the client [sp] and
    the file in state [f]: what is printed, and the file afterwards. *)
Definition extract_playlist_tracks (sp : client) (f : file)
    (playlist_url : string) : outcome * file :=
  match playlist_id_of playlist_url with
  | inl err => (err, f)
  | inr playlist_id =>
      match fetch_tracks (sp playlist_id) with
      | inl msg => (FetchError msg, f)
      | inr tracks => export_tracks tracks f
      end
  end.

(** ** Runs of the export *)

(** One run: the file it leaves. *)
Definition run (f : file) (r : client * string) : file :=
  (extract_playlist_tracks r.1 f r.2).2.

(** The header row. *)
Definition header : list string := ["Index"; "Track"].

(** The rows of the entries [ds], indexed from 1. *)
Definition indexed (ds : list string) : list (list string) :=
  imap (λ i d, [PyStr.str_int (Z.of_nat (S i)); d]) ds.

(** A ledger file: no file yet, or records written by [csv.writer]. *)
Definition ledger_file (f : file) : Prop :=
  f = None ∨ ∃ rows, f = Some (writerows rows).

(** What the runs that start with no file keep true of the file: it is
    the header row followed by the rows of pairwise distinct entries,
    indexed from 1. *)
Definition ledger_inv (f : file) : Prop :=
  f = None ∨ ∃ ds, NoDup ds ∧ f = Some (writerows (header :: indexed ds)).

(** A client for the examples: one playlist of two pages. *)
Definition full_item (name artist : string) : item :=
  Item (Some (Some (Track (Some name) (Some [Artist (Some artist)])))).

Definition sp_example : client :=
  λ _, Page [full_item "A" "x"; full_item "B" "y"]
         (LastPage [full_item "A" "x"; Item (Some None); full_item "C" "z"]).

Definition url_example : string :=
  "https://open.spotify.com/playlist/37i9dQ?si=ab".

(** ** Items as the Web API documents them

    An item of a playlist has no track ([None]), or a track with a name
    and artists that have a name each. *)
Inductive fetched :=
  | NoTrack
  | Fetched (name : string) (artists : list string).

Definition to_item (x : fetched) : item :=
  match x with
  | NoTrack => Item (Some None)
  | Fetched name artists =>
      Item (Some (Some (Track (Some name)
                          (Some ((λ a, Artist (Some a)) <$> artists)))))
  end.

(** The Track Descriptor of section 3. *)
Definition descriptor (x : fetched) : option string :=
  match x with
  | NoTrack => None
  | Fetched name artists => Some (name +:+ " - " +:+ PyStr.join ", " artists)
  end.

(** [item['track'] is not None] *)
Definition has_track (it : item) : bool :=
  match item_track it with
  | Some None => false
  | _ => true
  end.

(** An item whose track is an empty dictionary. *)
Definition empty_track_item : item := Item (Some (Some (Track None None))).

(** ** What the design document says the merge computes

    The descriptors of the batch that are kept, read off the positions: the
    one at position [i] is kept when it is not in the set the scan starts
    from and does not occur in the batch before position [i]. *)
Definition first_new (existing : gset string) (batch : list string)
  : list string :=
  omap id
    (imap (λ i x, if decide ((x ∉ existing) ∧ (x ∉ take i batch))
                  then Some x else None) batch).

(** ** What the design document says the parser extracts *)

Module StrSpec.

(** [s[n:]] *)
Fixpoint drop (n : nat) (s : string) : string :=
  match n, s with
  | S k, String _ s' => drop k s'
  | _, _ => s
  end.

(** [s.partition(sep)] when [sep] occurs in [s]: what is before and what is
    after its first occurrence. *)
Fixpoint partition (sep s : string) : option (string * string) :=
  if String.prefix sep s then Some ("", drop (String.length sep) s)
  else
    match s with
    | "" => None
    | String c s' =>
        match partition sep s' with
        | Some (a, b) => Some (String c a, b)
        | None => None
        end
    end.

(** The part of [s] before the first occurrence of [sep], all of [s] when
    there is none. *)
Definition before (sep s : string) : string :=
  match partition sep s with
  | Some (a, _) => a
  | None => s
  end.

End StrSpec.

(** The playlist id of section 4.1: the URL has to contain [playlist/] after
    the domain of the service, and the id is what lies between that
    [playlist/] and the next [?], or the end of the string. *)
Definition spec_playlist_id (playlist_url : string) : option string :=
  match StrSpec.partition "open.spotify.com/playlist/" playlist_url with
  | Some (_, rest) => Some (StrSpec.before "?" rest)
  | None => None
  end.

(** ** The reader, in one pass over the text

    The records of [csv_reader], computed without the list of lines:
    [self] is the state of the parser after the characters read so far and
    [partial] tells whether some of them belong to a line that has not
    ended.  [csv_reader_scan] below shows that the two agree. *)
Fixpoint scan (self : Csv.ReaderObj) (partial : bool) (s : string)
  : option (list (list string)) :=
  match s with
  | "" =>
      if partial then
        self2 ← Csv.parse_process_char self Csv.EOL;
        match Csv.state self2 with
        | Csv.START_RECORD => Some [Csv.fields self2]
        | _ => Csv.at_end self2
        end
      else Csv.at_end self
  | String c s' =>
      self1 ← Csv.parse_process_char self (Csv.Char c);
      if TextIO.ends_line c s' then
        self2 ← Csv.parse_process_char self1 Csv.EOL;
        match Csv.state self2 with
        | Csv.START_RECORD =>
            (Csv.fields self2 ::.) <$> scan Csv.parse_reset false s'
        | _ => scan self2 false s'
        end
      else scan self1 true s'
  end.

(** The state a field written by [join_append] leaves the parser in:
    [st'], when the field started in state [st]. *)
Definition after_field (st : Csv.ParserState) (f : string)
    (st' : Csv.ParserState) : Prop :=
  st' = Csv.IN_FIELD ∨ st' = Csv.QUOTE_IN_QUOTED_FIELD ∨ (st' = st ∧ f = "").

(** ** Chains of pages *)

(** The answers of the client for a playlist of the pages [pages], each
    with a [next], followed by [last]. *)
Definition chain (pages : list (list item)) (last : paging) : paging :=
  foldr Page last pages.

(** ** The caller: the [__main__] block

    [str.strip()] removes the code points for which [str.isspace()] holds
    from both ends.  A [str] being modelled by its UTF-8 text, a code point
    is the one to four characters that encode it. *)

Definition utf8 (l : list nat) : string :=
  foldr (λ n s, String (ascii_of_nat n) s) "" l.

(** The code points with [isspace()]: U+0009..U+000D, U+001C..U+0020,
    U+0085, U+00A0, U+1680, U+2000..U+200A, U+2028, U+2029, U+202F, U+205F
    and U+3000. *)
Definition whitespace : list string :=
  utf8 <$>
    [ [9]; [10]; [11]; [12]; [13]; [28]; [29]; [30]; [31]; [32];
      [194; 133]; [194; 160]; [225; 154; 128];
      [226; 128; 128]; [226; 128; 129]; [226; 128; 130]; [226; 128; 131];
      [226; 128; 132]; [226; 128; 133]; [226; 128; 134]; [226; 128; 135];
      [226; 128; 136]; [226; 128; 137]; [226; 128; 138];
      [226; 128; 168]; [226; 128; 169]; [226; 128; 175]; [226; 129; 159];
      [227; 128; 128] ].

(** What follows the code point [s] starts with, when that code point is
    one of [W]. *)
Fixpoint after_first (W : list string) (s : string) : option string :=
  match W with
  | [] => None
  | w :: W' =>
      if String.prefix w s then Some (StrSpec.drop (String.length w) s)
      else after_first W' s
  end.

(** [s.lstrip()]; [fuel] bounds the number of code points removed. *)
Fixpoint lstrip_go (fuel : nat) (s : string) : string :=
  match fuel with
  | O => s
  | S n =>
      match after_first whitespace s with
      | Some rest => lstrip_go n rest
      | None => s
      end
  end.

Definition lstrip (s : string) : string := lstrip_go (String.length s) s.

(** [s.isspace()] or [s == ''] *)
Definition all_space (s : string) : bool := String.eqb (lstrip s) "".

(** [s.rstrip()] *)
Fixpoint rstrip (s : string) : string :=
  if all_space s then ""
  else
    match s with
    | "" => ""
    | String c s' => String c (rstrip s')
    end.

(** [s.strip()] *)
Definition strip (s : string) : string := rstrip (lstrip s).

(** Strings of spaces only. *)
Inductive spaces : string → Prop :=
  | spaces_nil : spaces ""
  | spaces_cons e r : e ∈ whitespace → spaces r → spaces (e +:+ r).

(** No code point of [whitespace] is empty, none starts another one, and
    no character after the first of one is the first of another. *)
Definition encodings_ok : bool :=
  forallb (λ e,
    negb (String.eqb e "")
    && forallb (λ e',
         implb (String.prefix e' e) (String.eqb e' e)
         && match e, e' with
            | String _ rest, String c _ =>
                negb (PyStr.contains (String c "") rest)
            | _, _ => true
            end) whitespace) whitespace.

(** Lines 144-146, [line] being what [input] returned. *)
Definition main_block (sp : client) (f : file) (line : string)
  : outcome * file :=
  let url := strip line in
  extract_playlist_tracks sp f url.

(** * Properties *)

(** ** The model on concrete inputs *)

Example split_url :
  PyStr.split "playlist/" "https://open.spotify.com/playlist/37i9dQ?si=ab"
  = ["https://open.spotify.com/"; "37i9dQ?si=ab"].
Proof. reflexivity. Qed.

Example split_twice : PyStr.split "aa" "aaa.aaaa" = [""; "a."; ""; ""].
Proof. reflexivity. Qed.

Example join_artists : PyStr.join ", " ["a"; "b"; "c"] = "a, b, c".
Proof. reflexivity. Qed.

Example str_int_ex :
  PyStr.str_int 120 = "120" ∧ PyStr.str_int (-7) = "-7" ∧ PyStr.str_int 0 = "0".
Proof. repeat split; reflexivity. Qed.

Example first_new_ex :
  first_new {[ "B" ]} ["A"; "B"; "C"; "A"; "D"; "C"] = ["A"; "C"; "D"].
Proof. vm_compute. reflexivity. Qed.

Example spec_playlist_id_ex :
  spec_playlist_id "https://open.spotify.com/playlist/37i9dQ?si=ab"
  = Some "37i9dQ"
  ∧ spec_playlist_id "https://open.spotify.com/playlist/37i9dQ" = Some "37i9dQ"
  ∧ spec_playlist_id "https://example.com/not-a-playlist" = None.
Proof. repeat split; reflexivity. Qed.

Example writerow_ex :
  Csv.writerow ["3"; "C - z, w"]
  = "3," +:+ String Csv.quotechar
               ("C - z, w" +:+ String Csv.quotechar Csv.lineterminator)
  ∧ Csv.writerow ["1"; "A - x"] = "1,A - x" +:+ Csv.lineterminator
  ∧ Csv.writerow [] = Csv.lineterminator
  ∧ Csv.writerow [ "" ]
    = String Csv.quotechar (String Csv.quotechar Csv.lineterminator)
  ∧ Csv.writerow ["a" +:+ String Csv.quotechar "b"; ""]
    = String Csv.quotechar
        ("a" +:+ String Csv.quotechar
                   (String Csv.quotechar
                      ("b" +:+ String Csv.quotechar ("," +:+ Csv.lineterminator)))).
Proof. repeat split; vm_compute; reflexivity. Qed.

Example readlines_ex :
  TextIO.readlines ("a" +:+ Csv.lineterminator +:+ "b"
                    +:+ String Csv.CR (String Csv.CR (String Csv.LF "c")))
  = ["a" +:+ Csv.lineterminator; "b" +:+ String Csv.CR "";
     Csv.lineterminator; "c"].
Proof. vm_compute. reflexivity. Qed.

Example csv_reader_ex :
  csv_reader "" = Some []
  ∧ csv_reader "x" = Some [["x"]]
  ∧ csv_reader (String Csv.LF (String Csv.LF "")) = Some [[]; []]
  ∧ csv_reader ("a,b" +:+ Csv.lineterminator +:+ ",") = Some [["a"; "b"]; [""; ""]]
  ∧ csv_reader ("a," +:+ String Csv.quotechar
                  ("b" +:+ Csv.lineterminator +:+ "c"
                   +:+ String Csv.quotechar (",d" +:+ Csv.lineterminator)))
    = Some [["a"; "b" +:+ Csv.lineterminator +:+ "c"; "d"]]
  ∧ csv_reader (String Csv.quotechar "a,b") = Some [["a,b"]]
  ∧ csv_reader (String Csv.quotechar ("a" +:+ String Csv.quotechar "b,c"))
    = Some [["ab"; "c"]].
Proof. repeat split; vm_compute; reflexivity. Qed.

Example run_ex :
  extract_playlist_tracks sp_example None url_example
  = (Exported 3 3,
     Some (writerows
             [ header; ["1"; "A - x"]; ["2"; "B - y"]; ["3"; "C - z"] ]))
  ∧ extract_playlist_tracks sp_example
      (Some (writerows [ header; ["1"; "B - y"] ])) url_example
    = (Exported 2 3,
       Some (writerows
               [ header; ["1"; "B - y"]; ["2"; "A - x"]; ["3"; "C - z"] ])).
Proof. split; vm_compute; reflexivity. Qed.

(** A file whose last line has lost its terminator is not a [ledger_file]:
    the row that is appended joins that line, and is not found by the next
    run. *)
Example unterminated_last_line :
  export_entries ["B"] (Some ("Index,Track" +:+ Csv.lineterminator +:+ "1,A"))
  = (Exported 1 2,
     Some ("Index,Track" +:+ Csv.lineterminator
           +:+ "1,A2,B" +:+ Csv.lineterminator))
  ∧ csv_reader ("Index,Track" +:+ Csv.lineterminator
                +:+ "1,A2,B" +:+ Csv.lineterminator)
    = Some [ header; ["1"; "A2"; "B"] ].
Proof. split; vm_compute; reflexivity. Qed.

(** ** The merge scan *)

Section merge.
Implicit Types (E : gset string) (l batch acc : list string) (x : string).

Lemma foldl_merge_step l : ∀ acc E,
  foldl merge_step (acc, E) l
  = (acc ++ (merge l E).1, (merge l E).2).
Proof.
  unfold merge. induction l as [|x l IH]; intros acc E; simpl.
  - by rewrite app_nil_r.
  - unfold merge_step at 2 4 6. simpl. destruct (decide (x ∈ E)); [done|].
    rewrite (IH (acc ++ [x])), (IH ([] ++ [x])). simpl.
    by rewrite <- app_assoc.
Qed.

Lemma merge_nil E : merge [] E = ([], E).
Proof. done. Qed.

Lemma merge_cons x l E :
  merge (x :: l) E
  = if decide (x ∈ E) then merge l E
    else (x :: (merge l ({[ x ]} ∪ E)).1, (merge l ({[ x ]} ∪ E)).2).
Proof.
  unfold merge at 1. simpl. unfold merge_step at 2. simpl.
  destruct (decide (x ∈ E)); [done|]. by rewrite foldl_merge_step.
Qed.

Lemma merge_set l : ∀ E, (merge l E).2 = E ∪ list_to_set l.
Proof.
  induction l as [|x l IH]; intros E; rewrite ?merge_cons; simpl.
  - set_solver.
  - destruct (decide (x ∈ E)); simpl; rewrite IH; set_solver.
Qed.

Lemma first_new_cons x l E :
  first_new E (x :: l)
  = if decide (x ∈ E) then first_new E l
    else x :: first_new ({[ x ]} ∪ E) l.
Proof.
  unfold first_new. rewrite imap_cons. simpl.
  assert (Hext : ∀ E',
    (x ∈ E → E' = E) → (x ∉ E → E' = {[ x ]} ∪ E) →
    imap ((λ i y, if decide ((y ∉ E) ∧ (y ∉ take i (x :: l)))
                  then Some y else None) ∘ S) l
    = imap (λ i y, if decide ((y ∉ E') ∧ (y ∉ take i l))
                   then Some y else None) l).
  { intros E' Hin Hout. apply imap_ext. intros i y _. simpl.
    destruct (decide (x ∈ E)) as [Hx|Hx].
    - rewrite (Hin Hx). repeat case_decide; try done; set_solver.
    - rewrite (Hout Hx). repeat case_decide; try done; set_solver. }
  destruct (decide (x ∈ E)) as [Hx|Hx].
  - rewrite decide_False by set_solver. simpl. by rewrite (Hext E).
  - rewrite decide_True by set_solver. simpl.
    by rewrite (Hext ({[ x ]} ∪ E)).
Qed.

Lemma merge_first_new l : ∀ E, (merge l E).1 = first_new E l.
Proof.
  induction l as [|x l IH]; intros E; [done|].
  rewrite merge_cons, first_new_cons.
  destruct (decide (x ∈ E)); simpl; by rewrite IH.
Qed.

Lemma merge_eq l E : merge l E = (first_new E l, E ∪ list_to_set l).
Proof.
  rewrite <- merge_first_new, <- merge_set. by destruct (merge l E).
Qed.

Lemma first_new_elem_of l : ∀ E x, x ∈ first_new E l ↔ x ∈ l ∧ x ∉ E.
Proof.
  induction l as [|y l IH]; intros E x.
  - unfold first_new. simpl. set_solver.
  - rewrite first_new_cons. destruct (decide (y ∈ E)).
    + rewrite IH. set_solver.
    + rewrite elem_of_cons, IH. destruct (decide (x = y)); set_solver.
Qed.

Lemma first_new_NoDup l : ∀ E, NoDup (first_new E l).
Proof.
  induction l as [|y l IH]; intros E.
  - unfold first_new. simpl. constructor.
  - rewrite first_new_cons. destruct (decide (y ∈ E)); [done|].
    constructor; [|done]. rewrite first_new_elem_of. set_solver.
Qed.

Lemma first_new_sublist l : ∀ E, first_new E l `sublist_of` l.
Proof.
  induction l as [|y l IH]; intros E.
  - unfold first_new. simpl. constructor.
  - rewrite first_new_cons. destruct (decide (y ∈ E)).
    + by apply sublist_cons.
    + by apply sublist_skip.
Qed.

Lemma first_new_size l E :
  size (E ∪ list_to_set l) = size E + length (first_new E l).
Proof.
  revert E. induction l as [|y l IH]; intros E.
  - unfold first_new. simpl. rewrite union_empty_r_L. lia.
  - rewrite first_new_cons. simpl. destruct (decide (y ∈ E)).
    + rewrite <- IH. f_equal. set_solver.
    + simpl. rewrite <- Nat.add_succ_comm.
      replace (S (size E)) with (size ({[ y ]} ∪ E))
        by (rewrite size_union by set_solver; by rewrite size_singleton).
      rewrite <- IH. f_equal. set_solver.
Qed.

End merge.

(** ** Strings *)

Section strings.
Implicit Types (s t p sep cur : string) (c : ascii).

Lemma str_app_cons c s t : String c s +:+ t = String c (s +:+ t).
Proof. done. Qed.

Lemma str_app_nil_l s : "" +:+ s = s.
Proof. done. Qed.

Lemma str_app_nil_r s : s +:+ "" = s.
Proof. induction s; [done|]. rewrite str_app_cons. by f_equal. Qed.

Lemma str_app_assoc s t p : (s +:+ t) +:+ p = s +:+ t +:+ p.
Proof. induction s; [done|]. rewrite !str_app_cons. by f_equal. Qed.

Lemma str_length_app s t :
  String.length (s +:+ t) = String.length s + String.length t.
Proof. induction s; [done|]. rewrite str_app_cons. simpl. by f_equal. Qed.

Lemma rev_app_spec cur s : String.rev_app cur s = String.rev cur +:+ s.
Proof.
  unfold String.rev. revert s. induction cur as [|c cur IH]; intros s; [done|].
  simpl. rewrite IH, (IH (String c "")). by rewrite str_app_assoc.
Qed.

Lemma prefix_spec p s : String.prefix p s = true ↔ ∃ t, s = p +:+ t.
Proof.
  revert s. induction p as [|c p IH]; intros s.
  - destruct s; simpl; split; eauto.
  - destruct s as [|c' s]; simpl.
    + split; [done|]. by intros [t Ht].
    + destruct (ascii_dec c c') as [->|Hne].
      * rewrite IH. split; intros [t Ht]; exists t.
        -- by rewrite str_app_cons, Ht.
        -- rewrite str_app_cons in Ht. by simplify_eq.
      * split; [done|]. intros [t Ht]. rewrite str_app_cons in Ht. by simplify_eq.
Qed.

Lemma prefix_app p t : String.prefix p (p +:+ t) = true.
Proof. apply prefix_spec. eauto. Qed.

Lemma drop_app p t : StrSpec.drop (String.length p) (p +:+ t) = t.
Proof. induction p; [by destruct t|]. by rewrite str_app_cons. Qed.

Lemma prefix_drop p s :
  String.prefix p s = true → s = p +:+ StrSpec.drop (String.length p) s.
Proof. intros [t ->]%prefix_spec. by rewrite drop_app. Qed.

Lemma contains_spec sub s :
  PyStr.contains sub s = true ↔ ∃ a b, s = a +:+ sub +:+ b.
Proof.
  induction s as [|c s IH]; cbn [PyStr.contains]; rewrite orb_true_iff.
  - split.
    + intros [[t Ht]%prefix_spec|?]; [|done]. exists "", t. done.
    + intros (a & b & Hab). left. apply prefix_spec.
      destruct a; [eauto|done].
  - rewrite IH. split.
    + intros [[t Ht]%prefix_spec|(a & b & ->)].
      * exists "", t. done.
      * exists (String c a), b. done.
    + intros (a & b & Hab). destruct a as [|c' a].
      * left. apply prefix_spec. eauto.
      * right. rewrite str_app_cons in Hab. simplify_eq. eauto.
Qed.

(** A string that contains [a +:+ sub] contains [sub]. *)
Lemma contains_suffix a sub s :
  PyStr.contains (a +:+ sub) s = true → PyStr.contains sub s = true.
Proof.
  rewrite !contains_spec. intros (x & y & ->).
  exists (x +:+ a), y. by rewrite !str_app_assoc.
Qed.

(** [partition] finds the first occurrence. *)
Lemma partition_Some sep s a b :
  StrSpec.partition sep s = Some (a, b) →
  s = a +:+ sep +:+ b
  ∧ ∀ a' b', s = a' +:+ b' → String.prefix sep b' = true →
             String.length a ≤ String.length a'.
Proof.
  revert a. induction s as [|c s IH]; intros a; cbn [StrSpec.partition].
  - destruct (String.prefix sep "") eqn:Hp; [|done].
    intros [= <- <-]. split; [by apply prefix_drop|]. intros; simpl; lia.
  - destruct (String.prefix sep (String c s)) eqn:Hp.
    + intros [= <- <-]. split; [by apply (prefix_drop _ (String c s))|].
      intros; simpl; lia.
    + destruct (StrSpec.partition sep s) as [[a0 b0]|] eqn:Hs; [|done].
      intros [= <- <-]. destruct (IH a0 eq_refl) as [-> Hmin].
      split; [done|]. intros a' b' Hab Hpre. destruct a' as [|c' a'].
      * rewrite str_app_nil_l in Hab. subst b'. congruence.
      * rewrite str_app_cons in Hab. simplify_eq. simpl.
        apply le_n_S. by eapply Hmin.
Qed.

Lemma partition_None sep s :
  StrSpec.partition sep s = None ↔ PyStr.contains sep s = false.
Proof.
  induction s as [|c s IH]; cbn [StrSpec.partition PyStr.contains].
  - destruct (String.prefix sep ""); simpl; split; done.
  - destruct (String.prefix sep (String c s)); simpl; [split; done|].
    rewrite <- IH. destruct (StrSpec.partition sep s) as [[??]|]; split; done.
Qed.

Lemma partition_is_Some sep s :
  PyStr.contains sep s = true → is_Some (StrSpec.partition sep s).
Proof.
  intros H. destruct (StrSpec.partition sep s) eqn:Hp; [eauto|].
  apply partition_None in Hp. congruence.
Qed.

(** [before sep s] stops at the first place where [sep] starts, or at the
    end. *)
Lemma before_spec sep s :
  ∃ post, s = StrSpec.before sep s +:+ post
    ∧ (post = "" ∨ String.prefix sep post = true)
    ∧ ∀ a' b', s = a' +:+ b' → String.prefix sep b' = true →
               String.length (StrSpec.before sep s) ≤ String.length a'.
Proof.
  unfold StrSpec.before.
  destruct (StrSpec.partition sep s) as [[a b]|] eqn:Hp.
  - apply partition_Some in Hp as [-> Hmin]. exists (sep +:+ b).
    split; [done|]. split; [right; apply prefix_app|done].
  - exists "". split; [by rewrite str_app_nil_r|]. split; [by left|].
    intros a' b' -> [t ->]%prefix_spec. apply partition_None in Hp.
    assert (PyStr.contains sep (a' +:+ sep +:+ t) = true); [|congruence].
    apply contains_spec. eauto.
Qed.

(** *** [split] *)

Lemma split_go_skip sep k : ∀ cur s,
  PyStr.split_go sep k cur s = PyStr.split_go sep 0 cur (StrSpec.drop k s).
Proof.
  induction k as [|k IH]; intros cur s; [by destruct s|].
  destruct s as [|c s]; [done|]. simpl. apply IH.
Qed.

Lemma split_go_partition sep s : sep ≠ "" → ∀ cur,
  PyStr.split_go sep 0 cur s
  = match StrSpec.partition sep s with
    | Some (a, b) => (String.rev cur +:+ a) :: PyStr.split_go sep 0 "" b
    | None => [String.rev cur +:+ s]
    end.
Proof.
  intros Hsep. induction s as [|c s IH]; intros cur.
  - simpl. destruct sep; [done|]. simpl. by rewrite str_app_nil_r.
  - cbn [PyStr.split_go StrSpec.partition].
    destruct (String.prefix sep (String c s)) eqn:Hp.
    + rewrite str_app_nil_r. f_equal. rewrite split_go_skip.
      destruct sep as [|c0 sep]; [done|]. simpl. by rewrite Nat.sub_0_r.
    + rewrite IH. destruct (StrSpec.partition sep s) as [[a b]|].
      * f_equal. unfold String.rev. simpl. rewrite !rev_app_spec.
        by rewrite !str_app_assoc.
      * f_equal. unfold String.rev. simpl. rewrite !rev_app_spec.
        by rewrite !str_app_assoc.
Qed.

Lemma split_partition sep s : sep ≠ "" →
  PyStr.split sep s
  = match StrSpec.partition sep s with
    | Some (a, b) => a :: PyStr.split sep b
    | None => [s]
    end.
Proof. intros. unfold PyStr.split. by rewrite split_go_partition. Qed.

Lemma split_head sep s : sep ≠ "" →
  PyStr.split sep s !! 0 = Some (StrSpec.before sep s).
Proof.
  intros. rewrite split_partition by done. unfold StrSpec.before.
  by destruct (StrSpec.partition sep s) as [[??]|].
Qed.

Lemma split_second sep s : sep ≠ "" →
  PyStr.split sep s !! 1
  = match StrSpec.partition sep s with
    | Some (_, b) => Some (StrSpec.before sep b)
    | None => None
    end.
Proof.
  intros. rewrite split_partition by done.
  destruct (StrSpec.partition sep s) as [[a b]|]; [|done].
  simpl. by apply split_head.
Qed.

End strings.

(** ** The playlist id *)

Section playlist_id.
Implicit Types (url s t : string).

Lemma str_app_eq_split (s1 t1 s2 t2 : string) :
  s1 +:+ t1 = s2 +:+ t2 → String.length s1 ≤ String.length s2 →
  ∃ d, s2 = s1 +:+ d ∧ t1 = d +:+ t2.
Proof.
  revert s2. induction s1 as [|c s1 IH]; intros s2 Heq Hlen.
  - exists s2. done.
  - destruct s2 as [|c2 s2]; [simpl in Hlen; lia|].
    rewrite !str_app_cons in Heq. simplify_eq.
    destruct (IH s2) as (d & -> & ->); [done|simpl in Hlen; lia|].
    exists d. done.
Qed.

Lemma prefix_char_app c d t :
  d ≠ "" → String.prefix (String c "") (d +:+ t) = true →
  String.prefix (String c "") d = true.
Proof.
  destruct d as [|c' d]; [done|]. intros _. rewrite str_app_cons. simpl.
  destruct (ascii_dec c c'); [|done]. intros _. by destruct d.
Qed.

(** The id the code extracts, in terms of first occurrences. *)
Lemma playlist_id_of_valid url :
  PyStr.contains "open.spotify.com/playlist/" url = true →
  ∃ pre rest,
    StrSpec.partition "playlist/" url = Some (pre, rest)
    ∧ PyStr.split "playlist/" url !! 1
      = Some (StrSpec.before "playlist/" rest)
    ∧ playlist_id_of url
      = inr (StrSpec.before "?" (StrSpec.before "playlist/" rest)).
Proof.
  intros Hc. unfold playlist_id_of. rewrite Hc. simpl negb. cbv iota.
  apply (contains_suffix "open.spotify.com/" "playlist/") in Hc.
  destruct (partition_is_Some _ _ Hc) as [[pre rest] Hp].
  exists pre, rest. rewrite split_second, Hp by done.
  by rewrite split_head.
Qed.

End playlist_id.

(** C10.  A URL that contains [open.spotify.com/playlist/] always has an
    element 1 in its split on [playlist/], and that element always has an
    element 0 in its split on [?]: the extraction of line 72 raises no
    [IndexError], and the branch of lines 73-75 is not taken. *)
Theorem C10_playlist_id_total (playlist_url : string) :
  PyStr.contains "open.spotify.com/playlist/" playlist_url = true →
  (∃ rest playlist_id,
     PyStr.split "playlist/" playlist_url !! 1 = Some rest
     ∧ PyStr.split "?" rest !! 0 = Some playlist_id
     ∧ playlist_id_of playlist_url = inr playlist_id)
  ∧ playlist_id_of playlist_url ≠ inl MalformedId.
Proof.
  intros Hc. destruct (playlist_id_of_valid _ Hc) as (pre & rest & _ & H1 & H2).
  split; [|by rewrite H2].
  eexists _, _. split; [exact H1|]. split; [by apply split_head|exact H2].
Qed.

Lemma C10_witness :
  PyStr.contains "open.spotify.com/playlist/"
    "https://open.spotify.com/playlist/37i9dQ?si=ab" = true
  ∧ playlist_id_of "https://open.spotify.com/playlist/37i9dQ?si=ab"
    ≠ inl MalformedId.
Proof.
  split; [reflexivity|].
  apply (C10_playlist_id_total
           "https://open.spotify.com/playlist/37i9dQ?si=ab").
  reflexivity.
Defined.

(** C6, as the design document states it, fails: with a second [playlist/]
    after the first one the code stops the id there, where the document
    takes everything up to the next [?] or the end; and with a [playlist/]
    before the domain the code starts the id after that one. *)
Lemma C6_counterexample :
  (PyStr.contains "open.spotify.com/playlist/"
     "https://open.spotify.com/playlist/abplaylist/cd" = true
   ∧ spec_playlist_id "https://open.spotify.com/playlist/abplaylist/cd"
     = Some "abplaylist/cd"
   ∧ playlist_id_of "https://open.spotify.com/playlist/abplaylist/cd"
     = inr "ab"
   ∧ "ab" ≠ "abplaylist/cd")
  ∧ (PyStr.contains "open.spotify.com/playlist/"
       "https://playlist/x.open.spotify.com/playlist/37i9dQ" = true
     ∧ spec_playlist_id "https://playlist/x.open.spotify.com/playlist/37i9dQ"
       = Some "37i9dQ"
     ∧ playlist_id_of "https://playlist/x.open.spotify.com/playlist/37i9dQ"
       = inr "x.open.spotify.com/"
     ∧ "x.open.spotify.com/" ≠ "37i9dQ").
Proof. repeat split; try reflexivity; discriminate. Qed.

(** C6, amended.  A URL without [open.spotify.com/playlist/] is rejected as
    invalid and the file is left as it was.  Otherwise the playlist id, the
    one handed to the client, starts right after the first [playlist/] of
    the URL and stops before the first place from there on where a [?] or
    another [playlist/] starts, or at the end of the string. *)
Theorem C6_playlist_id (playlist_url : string) :
  (PyStr.contains "open.spotify.com/playlist/" playlist_url = false →
   playlist_id_of playlist_url = inl InvalidUrl
   ∧ ∀ sp f, extract_playlist_tracks sp f playlist_url = (InvalidUrl, f))
  ∧ (PyStr.contains "open.spotify.com/playlist/" playlist_url = true →
     ∃ pre playlist_id post,
       playlist_url = pre +:+ "playlist/" +:+ playlist_id +:+ post
       ∧ (∀ a b, playlist_url = a +:+ b →
                 String.prefix "playlist/" b = true →
                 String.length pre ≤ String.length a)
       ∧ (post = "" ∨ String.prefix "?" post = true
          ∨ String.prefix "playlist/" post = true)
       ∧ (∀ a b, playlist_id +:+ post = a +:+ b →
                 String.prefix "?" b = true
                 ∨ String.prefix "playlist/" b = true →
                 String.length playlist_id ≤ String.length a)
       ∧ playlist_id_of playlist_url = inr playlist_id
       ∧ ∀ sp f,
           extract_playlist_tracks sp f playlist_url
           = match fetch_tracks (sp playlist_id) with
             | inl msg => (FetchError msg, f)
             | inr tracks => export_tracks tracks f
             end).
Proof.
  split.
  - intros Hc. assert (playlist_id_of playlist_url = inl InvalidUrl) as Hid.
    { unfold playlist_id_of. by rewrite Hc. }
    split; [done|]. intros sp f. unfold extract_playlist_tracks.
    by rewrite Hid.
  - intros Hc.
    destruct (playlist_id_of_valid _ Hc) as (pre & rest & Hp & _ & Hid).
    apply partition_Some in Hp as [Hurl Hfirst].
    destruct (before_spec "playlist/" rest) as (post1 & Hrest & Hstop1 & Hmin1).
    set (m := StrSpec.before "playlist/" rest) in *.
    destruct (before_spec "?" m) as (post2 & Hm & Hstop2 & Hmin2).
    set (id := StrSpec.before "?" m) in *.
    exists pre, id, (post2 +:+ post1).
    assert (rest = id +:+ post2 +:+ post1) as Hrest'.
    { rewrite Hrest at 1. rewrite Hm at 1. by rewrite str_app_assoc. }
    split; [by rewrite <- Hrest'|]. split; [done|]. split.
    { destruct Hstop2 as [->|[t ->]%prefix_spec].
      - destruct Hstop1 as [->|H]; [by left|]. right; right. done.
      - right; left. rewrite str_app_assoc. apply prefix_app. }
    split.
    { intros a b Hab Hb. rewrite <- Hrest' in Hab.
      destruct (decide (String.length id ≤ String.length a)) as [|Hlt]; [done|].
      exfalso. destruct Hb as [Hb|Hb].
      - symmetry in Hab. rewrite Hrest' in Hab.
        apply str_app_eq_split in Hab as (d & Hd & Hb'); [|lia].
        assert (d ≠ "") as Hne.
        { intros ->. rewrite str_app_nil_r in Hd. subst a. lia. }
        rewrite Hb' in Hb. apply prefix_char_app in Hb; [|done].
        apply prefix_spec in Hb as [t Ht].
        apply Hlt. apply (Hmin2 a (d +:+ post2)).
        + rewrite Hm at 1. rewrite Hd. by rewrite str_app_assoc.
        + rewrite Ht. rewrite str_app_assoc. apply prefix_app.
      - specialize (Hmin1 a b Hab Hb).
        assert (String.length id ≤ String.length m); [|lia].
        pose proof (f_equal String.length Hm) as Hl.
        rewrite str_length_app in Hl. lia. }
    split; [done|]. intros sp f. unfold extract_playlist_tracks.
    by rewrite Hid.
Qed.

Lemma C6_witness :
  playlist_id_of "https://example.com/not-a-playlist" = inl InvalidUrl
  ∧ ∃ pre playlist_id post,
      "https://open.spotify.com/playlist/37i9dQ?si=ab"
      = pre +:+ "playlist/" +:+ playlist_id +:+ post
      ∧ playlist_id_of "https://open.spotify.com/playlist/37i9dQ?si=ab"
        = inr playlist_id.
Proof.
  split.
  - apply (C6_playlist_id "https://example.com/not-a-playlist"). reflexivity.
  - destruct (proj2 (C6_playlist_id
        "https://open.spotify.com/playlist/37i9dQ?si=ab") eq_refl)
      as (pre & id & post & H1 & _ & _ & _ & H2 & _).
    exists pre, id, post. split; assumption.
Defined.

(** ** The reader *)

Section reader.
Import Csv TextIO.
Implicit Types (self r : ReaderObj) (s cur k : string) (c : ascii).

Lemma process_line_snoc cur : ∀ r c,
  process_line r (cur +:+ String c "")
  = process_line r cur ≫= λ r1, parse_process_char r1 (Char c).
Proof.
  induction cur as [|c' cur IH]; intros r c.
  - rewrite str_app_nil_l. simpl.
    by destruct (parse_process_char r (Char c)).
  - rewrite str_app_cons. simpl.
    destruct (parse_process_char r (Char c')); simpl; [apply IH|done].
Qed.

Lemma snoc_not_empty cur c : String.eqb (cur +:+ String c "") "" = false.
Proof. by destruct cur. Qed.

Lemma reader_rows_lines_go s : ∀ cur r,
  reader_rows r (lines_go cur s)
  = process_line r cur ≫= λ r1, scan r1 (negb (String.eqb cur "")) s.
Proof.
  induction s as [|c s IH]; intros cur r.
  - destruct cur as [|c' cur]; [done|].
    cbn [lines_go reader_rows scan String.eqb negb].
    destruct (process_line r (String c' cur)) as [r1|]; [|done].
    cbn [mbind option_bind].
    destruct (parse_process_char r1 EOL) as [r2|]; [|done].
    cbn [mbind option_bind]. by destruct (state r2).
  - cbn [lines_go scan]. destruct (ends_line c s) eqn:He.
    + cbn [reader_rows]. rewrite process_line_snoc.
      destruct (process_line r cur) as [r1|]; [|done].
      cbn [mbind option_bind].
      destruct (parse_process_char r1 (Char c)) as [r2|]; [|done].
      cbn [mbind option_bind].
      destruct (parse_process_char r2 EOL) as [r3|]; [|done].
      cbn [mbind option_bind]. rewrite !IH. by destruct (state r3).
    + rewrite IH, process_line_snoc, snoc_not_empty.
      destruct (process_line r cur) as [r1|]; [|done].
      cbn [mbind option_bind].
      by destruct (parse_process_char r1 (Char c)) as [r2|].
Qed.

(** The one-pass reader computes [csv_reader]. *)
Lemma csv_reader_scan s : csv_reader s = scan parse_reset false s.
Proof. unfold csv_reader, readlines. by rewrite reader_rows_lines_go. Qed.

(** *** The reader raises no error on the lines of a file *)

Lemma process_eol_total r : ∃ r', parse_process_char r EOL = Some r'
  ∧ state r' ≠ EAT_CRNL.
Proof.
  destruct r as [[] f fs]; eexists; (split; [reflexivity|done]).
Qed.

Lemma process_char_total r c :
  (state r = EAT_CRNL → is_crlf c = true) →
  ∃ r', parse_process_char r (Char c) = Some r'
    ∧ (state r' = EAT_CRNL → is_crlf c = true).
Proof.
  intros H. destruct r as [st f fs]. unfold parse_process_char.
  cbn [state] in *. unfold process_start_field.
  destruct st; try rewrite (H eq_refl);
    repeat match goal with
    | |- context [if ?b then _ else _] => destruct b eqn:?
    end; eexists; (split; [reflexivity|]); cbn [state set_state]; done.
Qed.

Lemma is_crlf_ends_line c s :
  is_crlf c = true → ends_line c s = false →
  String.prefix (String LF "") s = true.
Proof.
  unfold is_crlf, ends_line.
  destruct (c =? LF)%char, (c =? CR)%char; simpl; try done.
  by destruct (String.prefix (String LF "") s).
Qed.

Lemma prefix_LF c s :
  String.prefix (String LF "") (String c s) = true → is_crlf c = true.
Proof.
  intros [t Ht]%prefix_spec. rewrite str_app_cons in Ht. by simplify_eq.
Qed.

Lemma scan_total s : ∀ r partial,
  (state r = EAT_CRNL → String.prefix (String LF "") s = true) →
  is_Some (scan r partial s).
Proof.
  induction s as [|c s IH]; intros r partial Hr.
  - assert (state r ≠ EAT_CRNL) as Hne by (intros H; by apply Hr in H).
    cbn [scan]. destruct partial.
    + destruct (process_eol_total r) as (r' & -> & _).
      cbn [mbind option_bind]. unfold at_end.
      destruct (state r'), (unfinished r'); eauto.
    + unfold at_end. destruct (unfinished r); eauto.
  - cbn [scan].
    destruct (process_char_total r c) as (r1 & -> & H1).
    { intros H. eapply prefix_LF, Hr, H. }
    cbn [mbind option_bind]. destruct (ends_line c s) eqn:He.
    + destruct (process_eol_total r1) as (r2 & -> & H2).
      cbn [mbind option_bind].
      destruct (state r2) eqn:Hs;
        try (apply IH; intros H'; rewrite H' in Hs; done); try done.
      apply fmap_is_Some, IH. done.
    + apply IH. intros H. eapply is_crlf_ends_line; eauto.
Qed.

Lemma csv_reader_total s : is_Some (csv_reader s).
Proof. rewrite csv_reader_scan. by apply scan_total. Qed.

End reader.

(** ** Reading back what the writer wrote *)

Section roundtrip.
Import Csv TextIO.
Implicit Types (f buf k rest : string) (c : ascii) (fs row : list string).

Local Abbreviation mk st f fs := {| state := st; field := f; fields := fs |}.

Lemma special_false c :
  special c = false →
  (c =? delimiter)%char = false ∧ (c =? quotechar)%char = false
  ∧ is_crlf c = false.
Proof.
  unfold special. intros H.
  apply orb_false_elim in H as [H ?]. by apply orb_false_elim in H as [??].
Qed.

Lemma not_crlf_ends_line c s : is_crlf c = false → ends_line c s = false.
Proof.
  unfold is_crlf, ends_line. intros H.
  apply orb_false_elim in H as [-> ->]. done.
Qed.

Lemma ends_line_CR_LF s : ends_line CR (String LF s) = false.
Proof. unfold ends_line. simpl. by destruct s. Qed.

Lemma field_data_plain f : must_quote f = false → field_data f = f.
Proof.
  induction f as [|c f IH]; [done|]. cbn [must_quote field_data].
  intros H. apply orb_false_elim in H as [Hc Hf].
  apply special_false in Hc as (_ & -> & _). by rewrite IH.
Qed.

Lemma scan_step r r1 b c s :
  parse_process_char r (Char c) = Some r1 → ends_line c s = false →
  scan r b (String c s) = scan r1 true s.
Proof. intros H1 He. cbn [scan]. by rewrite H1, He. Qed.

Lemma scan_step_eol r r1 r2 b c s :
  parse_process_char r (Char c) = Some r1 → ends_line c s = true →
  parse_process_char r1 EOL = Some r2 → state r2 ≠ START_RECORD →
  scan r b (String c s) = scan r2 false s.
Proof.
  intros H1 He H2 Hs. cbn [scan]. rewrite H1, He. cbn [mbind option_bind].
  rewrite H2. cbn [mbind option_bind]. by destruct (state r2).
Qed.

(** Inside quotes: the data of a field, then the closing quote. *)
Lemma scan_quoted_body f : ∀ buf fs b k,
  scan (mk IN_QUOTED_FIELD buf fs) b (field_data f +:+ String quotechar k)
  = scan (mk QUOTE_IN_QUOTED_FIELD (buf +:+ f) fs) true k.
Proof.
  induction f as [|c f IH]; intros buf fs b k.
  - rewrite str_app_nil_r, str_app_nil_l. by apply scan_step.
  - cbn [field_data]. destruct (c =? quotechar)%char eqn:Hc.
    + apply Ascii.eqb_eq in Hc as ->. rewrite !str_app_cons.
      rewrite (scan_step _ (mk QUOTE_IN_QUOTED_FIELD buf fs)) by done.
      rewrite (scan_step _ (mk IN_QUOTED_FIELD (buf +:+ String quotechar "") fs))
        by done.
      rewrite IH. by rewrite str_app_assoc.
    + rewrite str_app_cons.
      assert (parse_process_char (mk IN_QUOTED_FIELD buf fs) (Char c)
              = Some (mk IN_QUOTED_FIELD (buf +:+ String c "") fs)) as Hstep.
      { unfold parse_process_char. cbn [state]. by rewrite Hc. }
      destruct (ends_line c (field_data f +:+ String quotechar k)) eqn:He.
      * rewrite (scan_step_eol _ _ _ _ _ _ Hstep He eq_refl) by done.
        rewrite IH. by rewrite str_app_assoc.
      * rewrite (scan_step _ _ _ _ _ Hstep He).
        rewrite IH. by rewrite str_app_assoc.
Qed.

(** Outside quotes: characters that need no quoting. *)
Lemma scan_plain_body f : must_quote f = false → ∀ buf fs b b' c0 k,
  scan (mk IN_FIELD buf fs) b (f +:+ String c0 k)
  = scan (mk IN_FIELD (buf +:+ f) fs) b' (String c0 k).
Proof.
  induction f as [|c f IH]; intros Hf buf fs b b' c0 k.
  - by rewrite str_app_nil_r.
  - cbn [must_quote] in Hf. apply orb_false_elim in Hf as [Hc Hf].
    apply special_false in Hc as (Hd & Hq & Hn).
    rewrite str_app_cons.
    rewrite (scan_step _ (mk IN_FIELD (buf +:+ String c "") fs)).
    + rewrite (IH Hf _ _ _ b'). by rewrite str_app_assoc.
    + unfold parse_process_char. cbn [state]. by rewrite Hn, Hd.
    + by apply not_crlf_ends_line.
Qed.

Lemma scan_join_append f st fs b c0 k :
  st = START_FIELD ∨ st = START_RECORD →
  ∃ st', after_field st f st'
    ∧ scan (mk st "" fs) b (join_append f false +:+ String c0 k)
      = scan (mk st' f fs) b (String c0 k).
Proof.
  intros Hst. unfold join_append. cbn [orb].
  destruct (must_quote f) eqn:Hq.
  - exists QUOTE_IN_QUOTED_FIELD. split; [right; by left|].
    rewrite str_app_cons, str_app_assoc.
    rewrite (scan_step _ (mk IN_QUOTED_FIELD "" fs))
      by (by destruct Hst as [-> | ->]).
    rewrite (str_app_cons quotechar "" (String c0 k)), str_app_nil_l.
    apply (scan_quoted_body f "" fs true (String c0 k)).
  - rewrite field_data_plain by done. destruct f as [|c f].
    + exists st. split; [right; right; done|done].
    + exists IN_FIELD. split; [by left|].
      cbn [must_quote] in Hq. apply orb_false_elim in Hq as [Hc Hf].
      apply special_false in Hc as (Hd & Hqc & Hn).
      rewrite str_app_cons.
      rewrite (scan_step _ (mk IN_FIELD (String c "") fs)).
      * by rewrite (scan_plain_body f Hf _ _ _ b).
      * destruct Hst as [-> | ->]; unfold parse_process_char;
          cbn [state]; unfold process_start_field;
          rewrite ?Hn, Hqc, Hd; done.
      * by apply not_crlf_ends_line.
Qed.

Lemma scan_delimiter st f st' fs b k :
  st = START_FIELD ∨ st = START_RECORD → after_field st f st' →
  scan (mk st' f fs) b (String delimiter k)
  = scan (mk START_FIELD "" (fs ++ [f])) true k.
Proof.
  intros Hst Hafter. apply scan_step; [|done].
  destruct Hafter as [->|[->|[-> ->]]]; [done|done|].
  by destruct Hst as [-> | ->].
Qed.

Lemma scan_lineterminator st' f fs b rest :
  st' = IN_FIELD ∨ st' = QUOTE_IN_QUOTED_FIELD ∨ st' = START_FIELD →
  scan (mk st' f fs) b (lineterminator +:+ rest)
  = ((fs ++ [f]) ::.) <$> scan parse_reset false rest.
Proof.
  intros Hst. change (lineterminator +:+ rest) with (String CR (String LF rest)).
  rewrite (scan_step _ (mk EAT_CRNL "" (fs ++ [f])));
    [|by destruct Hst as [->|[->| ->]]|apply ends_line_CR_LF].
  cbn [scan]. done.
Qed.

Lemma scan_fields fs' : ∀ f st done b rest,
  st = START_FIELD ∨ (st = START_RECORD ∧ (f ≠ "" ∨ fs' ≠ [])) →
  scan (mk st "" done) b
    (PyStr.join "," ((λ f, join_append f false) <$> f :: fs')
     +:+ lineterminator +:+ rest)
  = ((done ++ f :: fs') ::.) <$> scan parse_reset false rest.
Proof.
  induction fs' as [|f2 fs' IH]; intros f st done b rest Hst.
  - cbn [fmap list_fmap PyStr.join].
    destruct (scan_join_append f st done b CR (String LF rest))
      as (st' & Hafter & Heq); [naive_solver|].
    change (lineterminator +:+ rest) with (String CR (String LF rest)).
    rewrite Heq. apply (scan_lineterminator st' f done b rest).
    destruct Hafter as [->|[->|[-> ->]]]; [by left|right; by left|].
    right; right. naive_solver.
  - change ((λ f, join_append f false) <$> f :: f2 :: fs')
      with (join_append f false :: ((λ f, join_append f false) <$> f2 :: fs')).
    cbn [PyStr.join]. cbn [fmap list_fmap].
    set (J := PyStr.join "," _).
    rewrite !str_app_assoc.
    change ("," +:+ J +:+ lineterminator +:+ rest)
      with (String delimiter (J +:+ lineterminator +:+ rest)).
    destruct (scan_join_append f st done b delimiter
                (J +:+ lineterminator +:+ rest))
      as (st' & Hafter & Heq); [naive_solver|].
    rewrite Heq, (scan_delimiter st) by naive_solver.
    subst J. rewrite (IH f2 START_FIELD) by (by left).
    by rewrite <- app_assoc.
Qed.

(** A record written by [writerow] is read back as it was, whatever
    follows it. *)
Lemma scan_writerow row b rest :
  scan parse_reset b (writerow row +:+ rest)
  = (row ::.) <$> scan parse_reset false rest.
Proof.
  unfold writerow. rewrite str_app_assoc.
  destruct row as [|f fs'].
  { change (PyStr.join "," _ +:+ lineterminator +:+ rest)
      with (String CR (String LF rest)).
    rewrite (scan_step _ (mk EAT_CRNL "" []));
      [|done|apply ends_line_CR_LF].
    cbn [scan]. done. }
  destruct (decide (f = "" ∧ fs' = [])) as [[-> ->]|Hne].
  { change (join_append "" true +:+ lineterminator +:+ rest)
      with (String quotechar (String quotechar (lineterminator +:+ rest))).
    rewrite (scan_step _ (mk IN_QUOTED_FIELD "" [])) by done.
    rewrite (scan_step _ (mk QUOTE_IN_QUOTED_FIELD "" [])) by done.
    apply (scan_lineterminator QUOTE_IN_QUOTED_FIELD "" []). right. by left. }
  assert (match f :: fs' with
          | [ "" ] => join_append "" true
          | _ => PyStr.join "," ((λ f, join_append f false) <$> f :: fs')
          end = PyStr.join "," ((λ f, join_append f false) <$> f :: fs'))
    as ->.
  { destruct f; [|done]. destruct fs'; [|done]. naive_solver. }
  apply (scan_fields fs' f START_RECORD []). right. split; [done|].
  destruct (decide (f = "")); [|by left]. right. naive_solver.
Qed.

Lemma writerows_cons row (rows : list (list string)) :
  writerows (row :: rows) = writerow row +:+ writerows rows.
Proof. done. Qed.

Lemma writerows_app (rows1 rows2 : list (list string)) :
  writerows (rows1 ++ rows2) = writerows rows1 +:+ writerows rows2.
Proof.
  induction rows1 as [|row rows1 IH]; [done|].
  cbn [app writerows foldr]. fold (writerows (rows1 ++ rows2)).
  fold (writerows rows1). by rewrite IH, str_app_assoc.
Qed.

(** The records written by successive [writerow] calls are read back as
    they were, followed by the records of the text that follows them. *)
Lemma csv_reader_writerows (rows : list (list string)) rest :
  csv_reader (writerows rows +:+ rest) = (rows ++.) <$> csv_reader rest.
Proof.
  rewrite !csv_reader_scan. induction rows as [|row rows IH].
  - rewrite str_app_nil_l. by destruct (scan parse_reset false rest).
  - cbn [writerows foldr]. fold (writerows rows).
    rewrite str_app_assoc, scan_writerow, IH.
    by destruct (scan parse_reset false rest).
Qed.

Lemma csv_reader_writerows_all (rows : list (list string)) :
  csv_reader (writerows rows) = Some rows.
Proof.
  rewrite <- (str_app_nil_r (writerows rows)), csv_reader_writerows.
  cbn. by rewrite app_nil_r.
Qed.

Lemma writerow_not_empty row : writerow row ≠ "".
Proof.
  unfold writerow. intros H. apply (f_equal String.length) in H.
  rewrite str_length_app in H. simpl in H. lia.
Qed.

Lemma writerows_empty (rows : list (list string)) :
  String.eqb (writerows rows) "" = bool_decide (rows = []).
Proof.
  destruct rows as [|row rows]; [done|].
  cbn [writerows foldr]. rewrite bool_decide_eq_false_2 by done.
  apply String.eqb_neq. intros H. apply (f_equal String.length) in H.
  rewrite str_length_app in H. pose proof (writerow_not_empty row) as Hne.
  destruct (writerow row); [done|simpl in H; lia].
Qed.

End roundtrip.

(** ** The ledger *)

Section ledger.
Implicit Types (f : file) (E : gset string) (raw new ds : list string)
  (rows : list (list string)).

Lemma add_rows_spec rows : ∀ E,
  add_rows E rows = E ∪ list_to_set (omap (λ row, row !! 1) rows).
Proof.
  induction rows as [|row rows IH]; intros E; simpl.
  - set_solver.
  - destruct (row !! 1) eqn:Hr; rewrite IH; simpl; set_solver.
Qed.

Lemma add_rows_elem_of rows E t :
  t ∈ add_rows E rows ↔ t ∈ E ∨ ∃ row, row ∈ rows ∧ row !! 1 = Some t.
Proof.
  rewrite add_rows_spec, elem_of_union, elem_of_list_to_set, list_elem_of_omap.
  naive_solver.
Qed.

Lemma omap_column_1 (h : nat → string) new :
  omap (λ row : list string, row !! 1) (imap (λ idx entry, [h idx; entry]) new)
  = new.
Proof.
  revert h. induction new as [|x l IH]; intros h; [done|].
  rewrite imap_cons. simpl. f_equal. apply (IH (h ∘ S)).
Qed.

Lemma omap_new_rows start new :
  omap (λ row, row !! 1) (new_rows start new) = new.
Proof. apply omap_column_1. Qed.

Lemma new_rows_app start l1 l2 :
  new_rows start (l1 ++ l2)
  = new_rows start l1 ++ new_rows (start + Z.of_nat (length l1)) l2.
Proof.
  unfold new_rows. rewrite imap_app. f_equal. apply imap_ext.
  intros i x _. simpl. do 2 f_equal. lia.
Qed.

Lemma new_rows_indexed ds : new_rows 1 ds = indexed ds.
Proof.
  unfold new_rows, indexed. apply imap_ext. intros i x _. simpl.
  do 2 f_equal. lia.
Qed.

Lemma file_exists_false f : file_exists f = false ↔ f = None ∨ f = Some "".
Proof.
  destruct f as [text|]; simpl; [|naive_solver].
  rewrite negb_false_iff, String.eqb_eq. naive_solver.
Qed.

Lemma file_exists_written row rows :
  file_exists (Some (writerows (row :: rows))) = true.
Proof. cbn [file_exists]. by rewrite writerows_empty. Qed.

Lemma read_ledger_fresh f : file_exists f = false → read_ledger f = Ok ∅.
Proof. unfold read_ledger. by intros ->. Qed.

Lemma read_ledger_written row rows :
  read_ledger (Some (writerows (row :: rows))) = Ok (add_rows ∅ rows).
Proof.
  unfold read_ledger. rewrite file_exists_written. cbn [from_option].
  unfold id. by rewrite csv_reader_writerows_all.
Qed.

(** The read raises nothing. *)
Lemma read_ledger_total f : ∃ E, read_ledger f = Ok E.
Proof.
  unfold read_ledger. destruct (file_exists f); [|eauto].
  destruct (csv_reader_total (default "" f)) as [rows ->]. eauto.
Qed.

Lemma start_index_existing E raw :
  start_index true (E ∪ list_to_set raw) (first_new E raw)
  = (Z.of_nat (size E) + 1)%Z.
Proof. unfold start_index. rewrite first_new_size. lia. Qed.

Lemma export_entries_eq f raw E :
  read_ledger f = Ok E →
  export_entries raw f
  = (Exported (length (first_new E raw)) (size (E ∪ list_to_set raw)),
     append_ledger f (E ∪ list_to_set raw) (first_new E raw)).
Proof. unfold export_entries. intros ->. by rewrite merge_eq. Qed.

(** A run on no file, or on a file of size zero. *)
Lemma export_entries_fresh f raw :
  file_exists f = false →
  export_entries raw f
  = (Exported (length (first_new ∅ raw)) (size (list_to_set raw : gset string)),
     Some (writerows (header :: indexed (first_new ∅ raw)))).
Proof.
  intros Hf. rewrite (export_entries_eq f raw ∅) by by apply read_ledger_fresh.
  rewrite union_empty_l_L. f_equal. unfold append_ledger, start_index.
  rewrite Hf. apply file_exists_false in Hf as [-> | ->];
    cbn [from_option]; unfold id; by rewrite str_app_nil_l, new_rows_indexed.
Qed.

(** A run on a file written by [csv.writer]. *)
Lemma export_entries_written row rows raw :
  export_entries raw (Some (writerows (row :: rows)))
  = (Exported (length (first_new (add_rows ∅ rows) raw))
       (size (add_rows ∅ rows ∪ list_to_set raw)),
     Some (writerows
             (row :: rows
              ++ new_rows (Z.of_nat (size (add_rows ∅ rows)) + 1)
                   (first_new (add_rows ∅ rows) raw)))).
Proof.
  rewrite (export_entries_eq _ raw (add_rows ∅ rows))
    by apply read_ledger_written.
  f_equal. unfold append_ledger. rewrite file_exists_written.
  rewrite start_index_existing. cbn [from_option app]. unfold id.
  by rewrite <- writerows_app.
Qed.

Lemma first_new_all_in raw E : (∀ x, x ∈ raw → x ∈ E) → first_new E raw = [].
Proof.
  intros H. destruct (first_new E raw) as [|x l] eqn:Heq; [done|].
  assert (x ∈ first_new E raw) as Hx by (rewrite Heq; left).
  apply first_new_elem_of in Hx as [??]. naive_solver.
Qed.

Lemma list_to_set_first_new raw E :
  E ∪ list_to_set (first_new E raw) = E ∪ list_to_set raw.
Proof.
  apply set_eq. intros x.
  rewrite !elem_of_union, !elem_of_list_to_set, first_new_elem_of.
  destruct (decide (x ∈ E)); naive_solver.
Qed.

Lemma add_rows_app rows1 rows2 E :
  add_rows E (rows1 ++ rows2) = add_rows (add_rows E rows1) rows2.
Proof.
  revert E. induction rows1 as [|row rows1 IH]; intros E; [done|].
  simpl. by destruct (row !! 1).
Qed.

Lemma add_rows_new_rows E start new :
  add_rows E (new_rows start new) = E ∪ list_to_set new.
Proof. by rewrite add_rows_spec, omap_new_rows. Qed.

(** After a run the set read back from the file is the set the run ended
    with, and a run with the same batch finds nothing new. *)
Lemma export_entries_settled row rows raw E :
  add_rows ∅ rows = E ∪ list_to_set raw →
  export_entries raw (Some (writerows (row :: rows)))
  = (Exported 0 (size (E ∪ list_to_set raw)),
     Some (writerows (row :: rows))).
Proof.
  intros HE. rewrite export_entries_written, HE.
  rewrite first_new_all_in by set_solver.
  replace (E ∪ list_to_set raw ∪ list_to_set raw)
    with (E ∪ list_to_set raw) by set_solver.
  cbn [length new_rows imap]. by rewrite app_nil_r.
Qed.

(** What a second run on the file of a first run does. *)
Lemma export_entries_again f raw n total f1 :
  ledger_file f →
  export_entries raw f = (Exported n total, f1) →
  export_entries raw f1 = (Exported 0 total, f1).
Proof.
  intros [->|[[|row rows] ->]].
  - rewrite export_entries_fresh by done. intros [= <- <- <-].
    rewrite <- writerows_cons, <- (union_empty_l_L (list_to_set raw)).
    apply export_entries_settled.
    by rewrite <- new_rows_indexed, add_rows_new_rows, list_to_set_first_new.
  - rewrite export_entries_fresh by done. intros [= <- <- <-].
    rewrite <- writerows_cons, <- (union_empty_l_L (list_to_set raw)).
    apply export_entries_settled.
    by rewrite <- new_rows_indexed, add_rows_new_rows, list_to_set_first_new.
  - rewrite export_entries_written. intros [= <- <- <-].
    rewrite <- writerows_cons. apply export_entries_settled.
    by rewrite add_rows_app, add_rows_new_rows, list_to_set_first_new.
Qed.

End ledger.

(** ** The merge and the indices, end to end *)

Section examples.
Implicit Types (A B C : string) (f : file).

Lemma first_new_ABAC A B C :
  A ≠ B → A ≠ C → B ≠ C → first_new ∅ [A; B; A; C] = [A; B; C].
Proof.
  intros. rewrite first_new_cons, decide_False by set_solver.
  rewrite first_new_cons, decide_False by set_solver.
  rewrite first_new_cons, decide_True by set_solver.
  rewrite first_new_cons, decide_False by set_solver.
  done.
Qed.

Lemma size_of_first_new (l : list string) :
  size (list_to_set l : gset string) = length (first_new ∅ l).
Proof.
  rewrite <- (union_empty_l_L (list_to_set l)), first_new_size.
  by rewrite size_empty.
Qed.

End examples.

(** C1.  The merge scan returns the descriptors of the batch that are not
    in the set it starts from and do not occur earlier in the batch, in the
    order of the batch: a sublist of the batch, without repeats, that holds
    exactly the descriptors of the batch outside the initial set; the set it
    ends with is the initial set extended with the batch.  For the batch
    [A, B, A, C] and an empty ledger (no file, or a file of size zero) the
    run writes the header and the rows (1, A), (2, B), (3, C). *)
Theorem C1_merge_first_occurrences :
  (∀ (batch : list string) (existing : gset string),
     merge batch existing
     = (first_new existing batch, existing ∪ list_to_set batch)
     ∧ first_new existing batch `sublist_of` batch
     ∧ NoDup (first_new existing batch)
     ∧ ∀ x, x ∈ first_new existing batch ↔ x ∈ batch ∧ x ∉ existing)
  ∧ (∀ A B C : string, A ≠ B → A ≠ C → B ≠ C →
       merge [A; B; A; C] ∅ = ([A; B; C], {[ A; B; C ]})
       ∧ ∀ f, file_exists f = false →
           export_entries [A; B; A; C] f
           = (Exported 3 3,
              Some (writerows [ header; ["1"; A]; ["2"; B]; ["3"; C] ]))).
Proof.
  split.
  - intros batch existing. split; [apply merge_eq|].
    split; [apply first_new_sublist|]. split; [apply first_new_NoDup|].
    apply first_new_elem_of.
  - intros A B C HAB HAC HBC. split.
    + rewrite merge_eq, first_new_ABAC by done. f_equal. set_solver.
    + intros f Hf. rewrite export_entries_fresh by done.
      rewrite size_of_first_new, first_new_ABAC by done. done.
Qed.

Lemma C1_witness :
  export_entries ["A"; "B"; "A"; "C"] None
  = (Exported 3 3,
     Some (writerows [ header; ["1"; "A"]; ["2"; "B"]; ["3"; "C"] ])).
Proof.
  apply (proj2 C1_merge_first_occurrences "A" "B" "C");
    [discriminate|discriminate|discriminate|reflexivity].
Defined.

(** C2.  The read of the ledger raises nothing, and with [existing] the set
    read, [new] the new unique tracks and [final] the set after the merge:
    when the file existed and was not empty the first index is
    [size final - length new + 1], which is [size existing + 1]; otherwise
    it is 1; the run appends to the file (after the header, when the file
    did not exist) one row per new track, numbered from the first index on.
    On a ledger of [N] distinct entries written by earlier runs the first
    index is [N + 1].  For the ledger (1, A), (2, B) and the batch [B, C]
    the row (3, C) is appended and the total is 3. *)
Theorem C2_index_assignment :
  (∀ (f : file) (raw : list string),
     ∃ existing new final start,
       read_ledger f = Ok existing
       ∧ merge raw existing = (new, final)
       ∧ start = start_index (file_exists f) final new
       ∧ (file_exists f = true →
          start = (Z.of_nat (size final) - Z.of_nat (length new) + 1)%Z
          ∧ start = (Z.of_nat (size existing) + 1)%Z)
       ∧ (file_exists f = false → start = 1%Z)
       ∧ export_entries raw f
         = (Exported (length new) (size final),
            Some (default "" f
                  +:+ writerows
                        ((if file_exists f then [] else [header])
                         ++ imap (λ i entry,
                                    [PyStr.str_int (start + Z.of_nat i); entry])
                              new))))
  ∧ (∀ ds : list string, NoDup ds →
       read_ledger (Some (writerows (header :: indexed ds)))
       = Ok (list_to_set ds)
       ∧ ∀ raw,
           start_index true (list_to_set ds ∪ list_to_set raw)
             (first_new (list_to_set ds) raw)
           = (Z.of_nat (length ds) + 1)%Z)
  ∧ (∀ A B C : string, A ≠ B → C ≠ A → C ≠ B →
       export_entries [B; C]
         (Some (writerows [ header; ["1"; A]; ["2"; B] ]))
       = (Exported 1 3,
          Some (writerows [ header; ["1"; A]; ["2"; B]; ["3"; C] ]))).
Proof.
  split; [|split].
  - intros f raw. destruct (read_ledger_total f) as [E HE].
    exists E, (first_new E raw), (E ∪ list_to_set raw),
      (start_index (file_exists f) (E ∪ list_to_set raw) (first_new E raw)).
    split; [done|]. split; [apply merge_eq|]. split; [done|].
    split; [|split].
    + intros ->. split; [done|]. apply start_index_existing.
    + by intros ->.
    + by rewrite (export_entries_eq f raw E).
  - intros ds Hds.
    assert (add_rows ∅ (indexed ds) = list_to_set ds) as Hset.
    { rewrite <- new_rows_indexed, add_rows_new_rows. set_solver. }
    split; [by rewrite read_ledger_written, Hset|].
    intros raw. rewrite start_index_existing.
    by rewrite size_list_to_set.
  - intros A B C HAB HCA HCB. rewrite export_entries_written.
    assert (add_rows ∅ [["1"; A]; ["2"; B]] = {[ B; A ]}) as ->.
    { cbn. set_solver. }
    rewrite first_new_cons, decide_True by set_solver.
    rewrite first_new_cons, decide_False by set_solver.
    replace (size ({[B; A]} : gset string)) with 2
      by (rewrite size_union, !size_singleton by set_solver; done).
    replace (size ({[B; A]} ∪ list_to_set [B; C] : gset string)) with 3.
    { done. }
    replace ({[B; A]} ∪ list_to_set [B; C] : gset string)
      with ({[ C ]} ∪ ({[ B ]} ∪ {[ A ]}) : gset string) by set_solver.
    rewrite !size_union, !size_singleton by set_solver. done.
Qed.

Lemma C2_witness :
  export_entries ["B"; "C"]
    (Some (writerows [ header; ["1"; "A"]; ["2"; "B"] ]))
  = (Exported 1 3,
     Some (writerows [ header; ["1"; "A"]; ["2"; "B"]; ["3"; "C"] ])).
Proof.
  apply (proj2 (proj2 C2_index_assignment) "A" "B" "C"); discriminate.
Defined.

(** ** Runs *)

Section runs.
Implicit Types (sp : client) (f : file) (url : string) (o : outcome).

(** What a run does is fixed by the URL and the client up to the file: it
    exports a batch, or it stops early and leaves the file as it was. *)
Lemma extract_cases sp url :
  (∃ raw, ∀ f, extract_playlist_tracks sp f url = export_entries raw f)
  ∨ (∃ o, (∀ n t, o ≠ Exported n t)
          ∧ ∀ f, extract_playlist_tracks sp f url = (o, f)).
Proof.
  unfold extract_playlist_tracks.
  destruct (playlist_id_of url) as [err|id] eqn:Hid.
  - right. exists err. split; [|done]. intros n t.
    unfold playlist_id_of in Hid.
    repeat match type of Hid with
           | context [match ?x with _ => _ end] => destruct x
           | context [if ?x then _ else _] => destruct x
           end; by simplify_eq.
  - destruct (fetch_tracks (sp id)) as [msg|tracks].
    { right. by exists (FetchError msg). }
    unfold export_tracks. destruct (track_data_raw tracks) as [raw|e].
    + left. eauto.
    + right. by exists (Uncaught e).
Qed.

Lemma export_entries_Exported raw f :
  ∃ n t f', export_entries raw f = (Exported n t, f').
Proof.
  destruct (read_ledger_total f) as [E HE].
  rewrite (export_entries_eq f raw E HE). eauto.
Qed.

Lemma export_entries_inv raw f :
  ledger_inv f → ledger_inv (export_entries raw f).2.
Proof.
  intros [->|(ds & Hds & ->)].
  - rewrite export_entries_fresh by done. right.
    exists (first_new ∅ raw). split; [apply first_new_NoDup|done].
  - rewrite export_entries_written. right.
    assert (add_rows ∅ (indexed ds) = list_to_set ds) as ->.
    { rewrite <- new_rows_indexed, add_rows_new_rows. set_solver. }
    exists (ds ++ first_new (list_to_set ds) raw). split.
    + apply NoDup_app. split; [done|]. split; [|apply first_new_NoDup].
      intros x Hx [_ Hn]%first_new_elem_of. set_solver.
    + cbn [snd]. do 3 f_equal.
      rewrite <- !new_rows_indexed, new_rows_app, size_list_to_set by done.
      do 2 f_equal. lia.
Qed.

Lemma run_inv f r : ledger_inv f → ledger_inv (run f r).
Proof.
  intros Hf. unfold run.
  destruct (extract_cases r.1 r.2) as [[raw ->]|(o & _ & ->)]; [|done].
  by apply export_entries_inv.
Qed.

Lemma runs_inv (runs : list (client * string)) f :
  ledger_inv f → ledger_inv (foldl run f runs).
Proof.
  revert f. induction runs as [|r runs IH]; intros f Hf; [done|].
  simpl. by apply IH, run_inv.
Qed.

Lemma indexed_lookup (ds : list string) i d :
  ds !! i = Some d →
  indexed ds !! i = Some [PyStr.str_int (Z.of_nat (i + 1)); d].
Proof.
  intros H. unfold indexed. rewrite list_lookup_imap, H. simpl.
  by rewrite Nat.add_1_r.
Qed.

End runs.

(** C3.  On a ledger file (no file, or a file written by the writer) a run
    that exported, run again with the same client and the same URL, leaves
    the file as the first run left it, reports no new track and reports
    the same total; a run that did not export reports the same again and
    leaves the file alone. *)
Theorem C3_idempotent (sp : client) (f : file) (playlist_url : string)
    (o : outcome) (f1 : file) :
  ledger_file f →
  extract_playlist_tracks sp f playlist_url = (o, f1) →
  extract_playlist_tracks sp f1 playlist_url
  = (match o with Exported _ total => Exported 0 total | _ => o end, f1).
Proof.
  intros Hf Hrun.
  destruct (extract_cases sp playlist_url) as [[raw Hraw]|(o' & Hne & Hsame)].
  - rewrite Hraw in *.
    destruct (export_entries_Exported raw f) as (n & t & f' & He).
    rewrite He in Hrun. simplify_eq.
    by apply (export_entries_again f raw n t).
  - rewrite Hsame in *. simplify_eq. destruct o; try done.
    by destruct (Hne new total).
Qed.

Lemma C3_witness :
  extract_playlist_tracks sp_example
    (Some (writerows
             [ header; ["1"; "A - x"]; ["2"; "B - y"]; ["3"; "C - z"] ]))
    url_example
  = (Exported 0 3,
     Some (writerows
             [ header; ["1"; "A - x"]; ["2"; "B - y"]; ["3"; "C - z"] ])).
Proof.
  apply (C3_idempotent sp_example None url_example (Exported 3 3)).
  - left. reflexivity.
  - vm_compute. reflexivity.
Defined.

(** C4.  After any sequence of runs that starts with no file, either there
    is still no file, or the file reads back as the header row followed by
    the rows (1, d1), ..., (N, dN) in this order, where d1, ..., dN are
    pairwise distinct and are the entries a further run would find in the
    ledger. *)
Theorem C4_ledger_invariant (runs : list (client * string)) :
  foldl run None runs = None
  ∨ ∃ text ds,
      foldl run None runs = Some text
      ∧ csv_reader text = Some (header :: indexed ds)
      ∧ NoDup ds
      ∧ length (indexed ds) = length ds
      ∧ (∀ i d, ds !! i = Some d →
           indexed ds !! i = Some [PyStr.str_int (Z.of_nat (i + 1)); d])
      ∧ read_ledger (Some text) = Ok (list_to_set ds)
      ∧ size (list_to_set ds : gset string) = length ds.
Proof.
  destruct (runs_inv runs None) as [H|(ds & Hds & H)]; [by left|by left|].
  right. exists (writerows (header :: indexed ds)), ds.
  split; [done|]. split; [apply csv_reader_writerows_all|].
  split; [done|]. split; [apply length_imap|].
  split; [apply indexed_lookup|]. split.
  - rewrite read_ledger_written, <- new_rows_indexed, add_rows_new_rows.
    f_equal. set_solver.
  - by apply size_list_to_set.
Qed.

Lemma C4_witness :
  foldl run None [(sp_example, url_example); (sp_example, "x")] = None
  ∨ ∃ text ds,
      foldl run None [(sp_example, url_example); (sp_example, "x")] = Some text
      ∧ csv_reader text = Some (header :: indexed ds)
      ∧ NoDup ds
      ∧ length (indexed ds) = length ds
      ∧ (∀ i d, ds !! i = Some d →
           indexed ds !! i = Some [PyStr.str_int (Z.of_nat (i + 1)); d])
      ∧ read_ledger (Some text) = Ok (list_to_set ds)
      ∧ size (list_to_set ds : gset string) = length ds.
Proof.
  apply (C4_ledger_invariant [(sp_example, url_example); (sp_example, "x")]).
Defined.

(** C5.  The read of the ledger raises nothing.  With no file, or a file of
    size zero, the set is empty.  Otherwise the first row the reader yields
    is skipped, whatever it holds, and the set holds exactly the second
    column of the rows after it that have one: a row of fewer than two
    columns adds nothing. *)
Theorem C5_ledger_reader (f : file) :
  (file_exists None = false ∧ read_ledger None = Ok ∅)
  ∧ (file_exists f = false → read_ledger f = Ok ∅)
  ∧ (∀ text, f = Some text → text ≠ "" →
       ∃ rows existing,
         csv_reader text = Some rows
         ∧ read_ledger f = Ok existing
         ∧ ∀ t, t ∈ existing
                ↔ ∃ row, row ∈ tail rows ∧ 1 < length row ∧ row !! 1 = Some t).
Proof.
  split; [done|]. split; [apply read_ledger_fresh|].
  intros text -> Hne. destruct (csv_reader_total text) as [rows Hrows].
  exists rows, (add_rows ∅ (tail rows)). split; [done|]. split.
  - unfold read_ledger. cbn [file_exists from_option]. unfold id.
    rewrite Hrows. by apply String.eqb_neq in Hne as ->.
  - intros t. rewrite add_rows_elem_of. split.
    + intros [?|(row & Hin & Hrow)]; [set_solver|].
      exists row. split; [done|]. split; [|done].
      by apply lookup_lt_Some in Hrow.
    + intros (row & ? & _ & ?). right. eauto.
Qed.

Lemma C5_witness :
  ∃ rows existing,
    csv_reader (writerows [ header; ["1"; "A"]; ["x"]; []; ["2"; "B"; "y"] ])
    = Some rows
    ∧ read_ledger
        (Some (writerows [ header; ["1"; "A"]; ["x"]; []; ["2"; "B"; "y"] ]))
      = Ok existing
    ∧ ∀ t, t ∈ existing
           ↔ ∃ row, row ∈ tail rows ∧ 1 < length row ∧ row !! 1 = Some t.
Proof.
  apply (proj2 (proj2 (C5_ledger_reader
    (Some (writerows [ header; ["1"; "A"]; ["x"]; []; ["2"; "B"; "y"] ]))))
    _ eq_refl).
  discriminate.
Defined.

(** C7.  A run that ends with the message for an invalid URL, for an id
    that could not be parsed or for a failed fetch leaves the file as it
    was: no file when there was none, the same text otherwise.  A failure
    of the client ends the run that way, and so does the URL
    [https://example.com/not-a-playlist] as an invalid URL. *)
Theorem C7_errors_keep_ledger :
  (∀ (sp : client) (f : file) (playlist_url : string) (o : outcome) (f' : file),
     extract_playlist_tracks sp f playlist_url = (o, f') →
     o = InvalidUrl ∨ o = MalformedId ∨ (∃ msg, o = FetchError msg) →
     f' = f)
  ∧ (∀ (sp : client) (f : file) (playlist_url playlist_id msg : string),
       playlist_id_of playlist_url = inr playlist_id →
       fetch_tracks (sp playlist_id) = inl msg →
       extract_playlist_tracks sp f playlist_url = (FetchError msg, f))
  ∧ (∀ (sp : client) (f : file),
       extract_playlist_tracks sp f "https://example.com/not-a-playlist"
       = (InvalidUrl, f)).
Proof.
  split; [|split].
  - intros sp f url o f' Hrun Ho.
    destruct (extract_cases sp url) as [[raw Hraw]|(o' & _ & Hsame)].
    + rewrite Hraw in Hrun.
      destruct (export_entries_Exported raw f) as (n & t & f1 & He).
      rewrite He in Hrun. simplify_eq. naive_solver.
    + rewrite Hsame in Hrun. by simplify_eq.
  - intros sp f url id msg Hid Hfetch. unfold extract_playlist_tracks.
    by rewrite Hid, Hfetch.
  - done.
Qed.

Lemma C7_witness :
  extract_playlist_tracks (λ _, SpotifyException "404")
    (Some (writerows [ header; ["1"; "A"] ])) url_example
  = (FetchError "404", Some (writerows [ header; ["1"; "A"] ]))
  ∧ ∀ f',
      extract_playlist_tracks sp_example None
        "https://example.com/not-a-playlist" = (InvalidUrl, f') →
      f' = None.
Proof.
  split.
  - apply (proj1 (proj2 C7_errors_keep_ledger) _ _ url_example "37i9dQ");
      reflexivity.
  - intros f' H.
    apply (proj1 C7_errors_keep_ledger sp_example None
             "https://example.com/not-a-playlist" InvalidUrl f' H).
    by left.
Defined.

(** C8, as the design document states it, fails: an item whose track is an
    empty dictionary is not left out; the run stops on the [KeyError] of
    [track['name']], and the tracks that follow it are not exported. *)
Lemma C8_counterexample :
  track_data_raw [empty_track_item; to_item (Fetched "A" ["x"])]
  = Raise (KeyError "name")
  ∧ export_tracks [empty_track_item; to_item (Fetched "A" ["x"])] None
    = (Uncaught (KeyError "name"), None)
  ∧ export_tracks [to_item (Fetched "A" ["x"])] None
    = (Exported 1 1, Some (writerows [ header; ["1"; "A - x"] ])).
Proof. split; [reflexivity|]. split; vm_compute; reflexivity. Qed.

Section descriptors.

Lemma mapM_artist_names (artists : list string) :
  mapM (λ a, getitem "name" (artist_name a))
       ((λ a, Artist (Some a)) <$> artists)
  = Ok artists.
Proof.
  induction artists as [|a l IH]; [done|].
  rewrite fmap_cons. cbn [mapM getitem artist_name bind]. by rewrite IH.
Qed.

Lemma track_data_raw_fetched (l : list fetched) :
  track_data_raw (to_item <$> l) = Ok (omap descriptor l).
Proof.
  induction l as [|x l IH]; [done|].
  rewrite fmap_cons. cbn [track_data_raw]. destruct x as [|name artists].
  - cbn. exact IH.
  - cbn [to_item item_track getitem bind describe track_name track_artists].
    rewrite mapM_artist_names. cbn [bind]. by rewrite IH.
Qed.

Lemma track_data_raw_filter (tracks : list item) :
  track_data_raw (filter (λ it, has_track it = true) tracks)
  = track_data_raw tracks.
Proof.
  induction tracks as [|it tracks IH]; [done|].
  destruct it as [[[t|]|]].
  - rewrite filter_cons_True by done. cbn. by rewrite IH.
  - rewrite filter_cons_False by done. exact IH.
  - by rewrite filter_cons_True.
Qed.

Lemma mapM_getitem_Ok (arts : list artist) (names : list string) :
  mapM (λ a, getitem "name" (artist_name a)) arts = Ok names →
  arts = (λ a, Artist (Some a)) <$> names.
Proof.
  revert names. induction arts as [|[[n|]] arts IH]; intros names.
  - by intros [= <-].
  - cbn [mapM getitem artist_name bind].
    destruct (mapM _ arts) as [ns|] eqn:Hm; cbn [bind]; [|done].
    intros [= <-]. rewrite fmap_cons. f_equal. by apply IH.
  - done.
Qed.

Lemma describe_Ok (t : track) (d : string) :
  describe t = Ok d →
  ∃ name names,
    t = Track (Some name) (Some ((λ a, Artist (Some a)) <$> names))
    ∧ d = name +:+ " - " +:+ PyStr.join ", " names.
Proof.
  destruct t as [[name|] [arts|]]; unfold describe;
    cbn [track_name track_artists getitem bind]; try done.
  destruct (mapM _ arts) as [names|] eqn:Hm; cbn [bind]; [|done].
  intros [= <-]. exists name, names. split; [|done].
  by rewrite (mapM_getitem_Ok arts names Hm).
Qed.

(** The descriptors reach the merge only for items as the Web API
    documents them. *)
Lemma track_data_raw_Ok_inv (tracks : list item) (raw : list string) :
  track_data_raw tracks = Ok raw →
  ∃ l : list fetched, tracks = to_item <$> l ∧ raw = omap descriptor l.
Proof.
  revert raw. induction tracks as [|[[[t|]|]] tracks IH]; intros raw.
  - intros [= <-]. by exists [].
  - cbn [track_data_raw item_track getitem bind].
    destruct (describe t) as [d|] eqn:Hd; cbn [bind]; [|done].
    destruct (track_data_raw tracks) as [ds|]; cbn [bind]; [|done].
    intros [= <-]. destruct (IH ds eq_refl) as (l & -> & ->).
    apply describe_Ok in Hd as (name & names & -> & ->).
    by exists (Fetched name names :: l).
  - cbn [track_data_raw item_track getitem bind].
    intros (l & -> & ->)%IH. by exists (NoTrack :: l).
  - done.
Qed.

End descriptors.

(** C8, amended.  For every fetched item sequence, a descriptor sequence
    is handed to the merge exactly when every item's track is [None] or
    has its name and its artists, each with a name; it then holds, in the
    order of the fetch, exactly the string [name - artists], the artists
    joined by a comma and a space in their order, of each item whose track
    is not [None].  Otherwise (an empty track, for one) the run stops on
    the exception before the merge and leaves the file as it was.  Items
    whose track is [None] are left out before the merge: the run, what it
    reports and what it writes, is the one of the items without them. *)
Theorem C8_none_tracks_skipped :
  (∀ (tracks : list item) (raw : list string),
     track_data_raw tracks = Ok raw
     ↔ ∃ l : list fetched, tracks = to_item <$> l ∧ raw = omap descriptor l)
  ∧ (∀ (tracks : list item) (e : exn) (f : file),
       track_data_raw tracks = Raise e →
       export_tracks tracks f = (Uncaught e, f))
  ∧ (∀ l : list fetched, track_data_raw (to_item <$> l) = Ok (omap descriptor l))
  ∧ (∀ tracks : list item,
       track_data_raw tracks
       = track_data_raw (filter (λ it, has_track it = true) tracks))
  ∧ (∀ (tracks : list item) (f : file),
       export_tracks tracks f
       = export_tracks (filter (λ it, has_track it = true) tracks) f).
Proof.
  split; [|split; [|split; [|split]]].
  - intros tracks raw. split; [apply track_data_raw_Ok_inv|].
    intros (l & -> & ->). apply track_data_raw_fetched.
  - intros tracks e f He. unfold export_tracks. by rewrite He.
  - apply track_data_raw_fetched.
  - intros tracks. by rewrite track_data_raw_filter.
  - intros tracks f. unfold export_tracks. by rewrite track_data_raw_filter.
Qed.

Lemma C8_witness :
  (∃ l : list fetched,
     [to_item (Fetched "A" ["x"; "y"]); Item (Some None)] = to_item <$> l
     ∧ ["A - x, y"] = omap descriptor l)
  ∧ export_tracks [to_item (Fetched "A" ["x"]); empty_track_item]
      (Some "kept")
    = (Uncaught (KeyError "name"), Some "kept").
Proof.
  split.
  - apply (proj1 (proj1 C8_none_tracks_skipped
             [to_item (Fetched "A" ["x"; "y"]); Item (Some None)]
             ["A - x, y"])).
    reflexivity.
  - apply (proj1 (proj2 C8_none_tracks_skipped)). reflexivity.
Defined.

(** C9.  A file of size zero is treated as no file: the set starts empty,
    and the run writes the header row and numbers the new entries from 1,
    as it does when there is no file. *)
Theorem C9_empty_file (raw : list string) :
  file_exists (Some "") = false
  ∧ read_ledger (Some "") = Ok ∅
  ∧ export_entries raw (Some "") = export_entries raw None
  ∧ export_entries raw (Some "")
    = (Exported (length (first_new ∅ raw))
         (size (list_to_set raw : gset string)),
       Some (Csv.writerow ["Index"; "Track"]
             +:+ writerows
                   (imap (λ i entry,
                            [PyStr.str_int (1 + Z.of_nat i); entry])
                      (first_new ∅ raw))))
  ∧ Csv.writerow ["Index"; "Track"] = "Index,Track" +:+ Csv.lineterminator
  ∧ ∀ (sp : client) (playlist_url : string),
      (extract_playlist_tracks sp (Some "") playlist_url).1
      = (extract_playlist_tracks sp None playlist_url).1.
Proof.
  split; [done|]. split; [done|].
  split; [by rewrite !export_entries_fresh|].
  split; [by rewrite export_entries_fresh, <- new_rows_indexed|].
  split; [done|]. intros sp url.
  destruct (extract_cases sp url) as [[raw' Hraw]|(o & _ & Hsame)].
  - by rewrite !Hraw, !export_entries_fresh.
  - by rewrite !Hsame.
Qed.

(** * Further properties of the export *)

(** ** What a run leaves in the file *)

Section persistence.
Implicit Types (f : file) (E : gset string) (raw : list string)
  (rows : list (list string)).

Lemma merge_app l1 l2 E :
  merge (l1 ++ l2) E
  = ((merge l1 E).1 ++ (merge l2 (merge l1 E).2).1,
     (merge l2 (merge l1 E).2).2).
Proof.
  unfold merge at 1. rewrite foldl_app. fold (merge l1 E).
  destruct (merge l1 E) as [n1 E1]. by rewrite foldl_merge_step.
Qed.

Lemma first_new_app l1 l2 E :
  first_new E (l1 ++ l2)
  = first_new E l1 ++ first_new (E ∪ list_to_set l1) l2.
Proof.
  rewrite <- !merge_first_new, merge_app. cbn [fst].
  by rewrite merge_set.
Qed.

Lemma str_app_inv_head (s t1 t2 : string) : s +:+ t1 = s +:+ t2 → t1 = t2.
Proof.
  induction s as [|c s IH]; [done|]. rewrite !str_app_cons.
  intros [= H]. by apply IH.
Qed.

(** The file after a run on a ledger file, and the set read back from it. *)
Lemma export_entries_ledger f raw E :
  ledger_file f → read_ledger f = Ok E →
  ∃ row rows,
    (export_entries raw f).2 = Some (writerows (row :: rows))
    ∧ add_rows ∅ rows = E ∪ list_to_set raw
    ∧ ∃ old,
        (f = None ∧ old = [] ∨ f = Some (writerows old))
        ∧ row :: rows
          = old ++ (if file_exists f then [] else [header])
            ++ new_rows (if file_exists f then Z.of_nat (size E) + 1 else 1)
                 (first_new E raw).
Proof.
  intros [->|[[|row rows] ->]] HE.
  - cbn in HE. simplify_eq. rewrite export_entries_fresh by done.
    exists header, (indexed (first_new ∅ raw)). split; [done|].
    split; [by rewrite <- new_rows_indexed, add_rows_new_rows,
              list_to_set_first_new|].
    exists []. split; [by left|]. cbn. by rewrite new_rows_indexed.
  - cbn in HE. simplify_eq. rewrite export_entries_fresh by done.
    exists header, (indexed (first_new ∅ raw)). split; [done|].
    split; [by rewrite <- new_rows_indexed, add_rows_new_rows,
              list_to_set_first_new|].
    exists []. split; [by right|]. cbn. by rewrite new_rows_indexed.
  - rewrite read_ledger_written in HE. simplify_eq.
    rewrite export_entries_written, file_exists_written.
    eexists row, _. split; [done|].
    split; [by rewrite add_rows_app, add_rows_new_rows,
              list_to_set_first_new|].
    exists (row :: rows). split; [by right|done].
Qed.

End persistence.

(** X1.  On a ledger file, the set of entries that the next run reads from
    the file a run leaves is the set the run ended with: the entries read
    at its start and every descriptor of its batch, whatever characters the
    descriptors hold (commas, quotes, line breaks). *)
Theorem X1_ledger_read_back (raw : list string) (f : file)
    (existing : gset string) :
  ledger_file f → read_ledger f = Ok existing →
  read_ledger (export_entries raw f).2 = Ok (existing ∪ list_to_set raw)
  ∧ (export_entries raw f).1
    = Exported (length (first_new existing raw))
        (size (existing ∪ list_to_set raw)).
Proof.
  intros Hf HE.
  destruct (export_entries_ledger f raw existing Hf HE)
    as (row & rows & -> & Hset & _).
  split; [by rewrite read_ledger_written, Hset|].
  by rewrite (export_entries_eq f raw existing).
Qed.

Lemma X1_witness :
  read_ledger
    (export_entries
       ["a,b"; String Csv.quotechar "q"; "two" +:+ Csv.lineterminator +:+ "lines"]
       (Some (writerows [ header; ["1"; "x"] ]))).2
  = Ok ({[ "x" ]}
        ∪ list_to_set
            ["a,b"; String Csv.quotechar "q";
             "two" +:+ Csv.lineterminator +:+ "lines"]).
Proof.
  apply (X1_ledger_read_back
           ["a,b"; String Csv.quotechar "q";
            "two" +:+ Csv.lineterminator +:+ "lines"]
           (Some (writerows [ header; ["1"; "x"] ])) {[ "x" ]}).
  - right. exists [ header; ["1"; "x"] ]. reflexivity.
  - vm_compute. reflexivity.
Defined.

(** X2.  A run never shortens or rewrites the file: the text it finds is a
    prefix of the text it leaves, and a file that exists is never removed.
    When there was no file, the run leaves none or a file that starts with
    the header line. *)
Theorem X2_append_only (sp : client) (playlist_url : string) :
  (∀ text, ∃ suffix,
     (extract_playlist_tracks sp (Some text) playlist_url).2
     = Some (text +:+ suffix))
  ∧ ((extract_playlist_tracks sp None playlist_url).2 = None
     ∨ ∃ suffix,
         (extract_playlist_tracks sp None playlist_url).2
         = Some ("Index,Track" +:+ Csv.lineterminator +:+ suffix)).
Proof.
  destruct (extract_cases sp playlist_url) as [[raw Hraw]|(o & _ & Hsame)].
  - split.
    + intros text. rewrite Hraw.
      destruct (read_ledger_total (Some text)) as [E HE].
      rewrite (export_entries_eq _ raw E HE). eexists. reflexivity.
    + right. rewrite Hraw, export_entries_fresh by done.
      eexists. cbn [snd]. rewrite writerows_cons.
      change (Csv.writerow header)
        with (("Index,Track" +:+ Csv.lineterminator) +:+ "").
      rewrite str_app_nil_r, str_app_assoc. reflexivity.
  - split.
    + intros text. exists "". by rewrite Hsame, str_app_nil_r.
    + left. by rewrite Hsame.
Qed.

(** ** Items that lack a key *)

Section uncaught.




End uncaught.



(** ** Pagination *)

Section pagination.

Lemma fetch_tracks_chain_last pages items :
  fetch_tracks (chain pages (LastPage items)) = inr (concat pages ++ items).
Proof.
  induction pages as [|p pages IH]; [done|].
  cbn [chain foldr fetch_tracks concat]. fold (chain pages (LastPage items)).
  by rewrite IH, <- app_assoc.
Qed.

Lemma fetch_tracks_chain_exception pages msg :
  fetch_tracks (chain pages (SpotifyException msg)) = inl msg.
Proof.
  induction pages as [|p pages IH]; [done|].
  cbn [chain foldr fetch_tracks].
  fold (chain pages (SpotifyException msg)). by rewrite IH.
Qed.

End pagination.

(** X4.  The tracks of a playlist of several pages are the items of the
    pages one after the other, in the order of the pages.  When the client
    raises [SpotifyException] on a later page, the items of the pages
    fetched before it are dropped: the run reports the fetch error and
    leaves the file as it was. *)
Theorem X4_pagination (pages : list (list item)) :
  (∀ items, fetch_tracks (chain pages (LastPage items))
            = inr (concat pages ++ items))
  ∧ (∀ msg, fetch_tracks (chain pages (SpotifyException msg)) = inl msg)
  ∧ (∀ (sp : client) (f : file) (playlist_url playlist_id msg : string),
       playlist_id_of playlist_url = inr playlist_id →
       sp playlist_id = chain pages (SpotifyException msg) →
       extract_playlist_tracks sp f playlist_url = (FetchError msg, f))
  ∧ (∀ (sp : client) (f : file) (playlist_url playlist_id : string) items,
       playlist_id_of playlist_url = inr playlist_id →
       sp playlist_id = chain pages (LastPage items) →
       extract_playlist_tracks sp f playlist_url
       = export_tracks (concat pages ++ items) f).
Proof.
  split; [apply fetch_tracks_chain_last|].
  split; [apply fetch_tracks_chain_exception|]. split.
  - intros sp f url id msg Hid Hsp. unfold extract_playlist_tracks.
    by rewrite Hid, Hsp, fetch_tracks_chain_exception.
  - intros sp f url id items Hid Hsp. unfold extract_playlist_tracks.
    by rewrite Hid, Hsp, fetch_tracks_chain_last.
Qed.

Lemma X4_witness :
  extract_playlist_tracks
    (λ _, chain [[full_item "A" "x"]; [full_item "B" "y"]]
            (SpotifyException "429"))
    None url_example
  = (FetchError "429", None).
Proof.
  apply (proj1 (proj2 (proj2
           (X4_pagination [[full_item "A" "x"]; [full_item "B" "y"]])))
         _ None url_example "37i9dQ" "429"); reflexivity.
Defined.

(** ** The counts that are reported *)

Section counts.
Implicit Types (E : gset string) (raw : list string).

Lemma first_new_nil_iff raw E :
  first_new E raw = [] ↔ ∀ x, x ∈ raw → x ∈ E.
Proof.
  split; [|apply first_new_all_in].
  intros Hnil x Hx. destruct (decide (x ∈ E)) as [|Hn]; [done|].
  assert (x ∈ first_new E raw) as Hin by (by apply first_new_elem_of).
  rewrite Hnil in Hin. by apply elem_of_nil in Hin.
Qed.

Lemma first_new_Permutation raw1 raw2 E :
  raw1 ≡ₚ raw2 → first_new E raw1 ≡ₚ first_new E raw2.
Proof.
  intros Hp. apply NoDup_Permutation; [apply first_new_NoDup..|].
  intros x. rewrite !first_new_elem_of. by rewrite Hp.
Qed.

Lemma list_to_set_Permutation raw1 raw2 :
  raw1 ≡ₚ raw2 → (list_to_set raw1 : gset string) = list_to_set raw2.
Proof.
  intros Hp. apply set_eq. intros x. rewrite !elem_of_list_to_set.
  by rewrite Hp.
Qed.

End counts.

(** X5.  Every run that reaches the merge ends with the two counts, and
    they add up: the total is the number of entries read from the ledger
    plus the number of new tracks.  The number of new tracks is at most
    the length of the batch, and it is zero exactly when every descriptor
    of the batch was in the ledger already. *)
Theorem X5_counts (raw : list string) (f : file) :
  ∃ existing n total f',
    read_ledger f = Ok existing
    ∧ export_entries raw f = (Exported n total, f')
    ∧ total = size existing + n
    ∧ n ≤ length raw
    ∧ size existing ≤ total
    ∧ (n = 0 ↔ ∀ x, x ∈ raw → x ∈ existing).
Proof.
  destruct (read_ledger_total f) as [E HE].
  exists E, (length (first_new E raw)), (size (E ∪ list_to_set raw)),
    (append_ledger f (E ∪ list_to_set raw) (first_new E raw)).
  split; [done|]. split; [by apply export_entries_eq|].
  split; [apply first_new_size|].
  split; [apply sublist_length, first_new_sublist|].
  split; [rewrite first_new_size; lia|].
  rewrite <- first_new_nil_iff. split.
  - by intros ?%nil_length_inv.
  - by intros ->.
Qed.

Lemma X5_witness :
  ∃ existing n total f',
    read_ledger (Some (writerows [ header; ["1"; "A"] ])) = Ok existing
    ∧ export_entries ["A"; "B"; "B"] (Some (writerows [ header; ["1"; "A"] ]))
      = (Exported n total, f')
    ∧ total = size existing + n
    ∧ n ≤ length ["A"; "B"; "B"]
    ∧ size existing ≤ total
    ∧ (n = 0 ↔ ∀ x, x ∈ ["A"; "B"; "B"] → x ∈ existing).
Proof.
  apply (X5_counts ["A"; "B"; "B"] (Some (writerows [ header; ["1"; "A"] ]))).
Defined.

(** X6.  The order of the batch does not change what is found new, only
    the order in which it is written: two batches that are permutations of
    each other give the same final set, new tracks that are permutations
    of each other, and the same two counts. *)
Theorem X6_order_of_batch (raw1 raw2 : list string) (existing : gset string)
    (f : file) :
  raw1 ≡ₚ raw2 →
  (merge raw1 existing).2 = (merge raw2 existing).2
  ∧ (merge raw1 existing).1 ≡ₚ (merge raw2 existing).1
  ∧ (export_entries raw1 f).1 = (export_entries raw2 f).1.
Proof.
  intros Hp. rewrite !merge_eq. cbn [fst snd].
  split; [by rewrite (list_to_set_Permutation raw1 raw2)|].
  split; [by apply first_new_Permutation|].
  destruct (read_ledger_total f) as [E HE].
  rewrite !(export_entries_eq f _ E HE). cbn [fst].
  rewrite (list_to_set_Permutation raw1 raw2 Hp).
  by rewrite (Permutation_length (first_new_Permutation raw1 raw2 E Hp)).
Qed.

Lemma X6_witness :
  (export_entries ["C"; "A"; "B"] None).1
  = (export_entries ["A"; "B"; "C"] None).1.
Proof.
  apply (X6_order_of_batch ["C"; "A"; "B"] ["A"; "B"; "C"] ∅ None).
  apply (Permutation_cons_append ["A"; "B"] "C").
Defined.

(** ** Two runs in a row *)

Section two_runs.
Implicit Types (E : gset string) (raw : list string)
  (rows : list (list string)).

Lemma add_rows_indexed ds : add_rows ∅ (indexed ds) = ∅ ∪ list_to_set ds.
Proof. by rewrite <- new_rows_indexed, add_rows_new_rows. Qed.

Lemma two_runs_fresh f raw1 raw2 :
  file_exists f = false →
  export_entries raw2 (export_entries raw1 f).2
  = (Exported (length (first_new (∅ ∪ list_to_set raw1) raw2))
       (size (list_to_set (raw1 ++ raw2) : gset string)),
     (export_entries (raw1 ++ raw2) f).2).
Proof.
  intros Hf. rewrite (export_entries_fresh f raw1) by done.
  rewrite (export_entries_fresh f (raw1 ++ raw2)) by done. cbn [snd].
  rewrite export_entries_written, add_rows_indexed, list_to_set_first_new.
  rewrite first_new_app, list_to_set_app_L, (left_id_L ∅ (∪)).
  f_equal. do 3 f_equal.
  rewrite <- !new_rows_indexed, new_rows_app.
  rewrite <- (left_id_L ∅ (∪) (list_to_set raw1)) at 1.
  rewrite first_new_size, size_empty. do 2 f_equal. lia.
Qed.

Lemma two_runs_written row rows raw1 raw2 :
  export_entries raw2 (export_entries raw1 (Some (writerows (row :: rows)))).2
  = (Exported (length (first_new (add_rows ∅ rows ∪ list_to_set raw1) raw2))
       (size (add_rows ∅ rows ∪ list_to_set (raw1 ++ raw2))),
     (export_entries (raw1 ++ raw2) (Some (writerows (row :: rows)))).2).
Proof.
  rewrite !(export_entries_written row rows). cbn [snd].
  rewrite export_entries_written.
  rewrite add_rows_app, add_rows_new_rows, list_to_set_first_new.
  rewrite first_new_app, list_to_set_app_L, (assoc_L (∪)).
  f_equal. do 2 f_equal. rewrite <- app_assoc. f_equal.
  rewrite new_rows_app, first_new_size. f_equal.
  replace (Z.of_nat (size (add_rows ∅ rows)
                     + length (first_new (add_rows ∅ rows) raw1)) + 1)%Z
    with (Z.of_nat (size (add_rows ∅ rows)) + 1
          + Z.of_nat (length (first_new (add_rows ∅ rows) raw1)))%Z by lia.
  done.
Qed.

End two_runs.

(** X7.  On a ledger file, a run with the batch [raw1] followed by a run
    with the batch [raw2] leaves the file that one run with the batch
    [raw1 ++ raw2] leaves, row for row and index for index; the new tracks
    of the two runs add up to those of the one run, and the second run
    reports the total the one run reports. *)
Theorem X7_two_runs_as_one (raw1 raw2 : list string) (f : file) :
  ledger_file f →
  ∃ n1 t1 f1 n2 total f2,
    export_entries raw1 f = (Exported n1 t1, f1)
    ∧ export_entries raw2 f1 = (Exported n2 total, f2)
    ∧ export_entries (raw1 ++ raw2) f = (Exported (n1 + n2) total, f2).
Proof.
  intros Hf.
  destruct (read_ledger_total f) as [E HE].
  pose proof (export_entries_eq f raw1 E HE) as H1.
  pose proof (export_entries_eq f (raw1 ++ raw2) E HE) as H12.
  rewrite first_new_app, length_app in H12.
  eexists _, _, _, (length (first_new (E ∪ list_to_set raw1) raw2)), _, _.
  split; [exact H1|]. split; [|exact H12].
  replace (append_ledger f (E ∪ list_to_set raw1) (first_new E raw1))
    with (export_entries raw1 f).2 by (by rewrite H1).
  replace (append_ledger f (E ∪ list_to_set (raw1 ++ raw2))
             (first_new E raw1 ++ first_new (E ∪ list_to_set raw1) raw2))
    with (export_entries (raw1 ++ raw2) f).2
    by (by rewrite (export_entries_eq f (raw1 ++ raw2) E HE), first_new_app).
  destruct Hf as [->|[[|row rows] ->]].
  - cbn in HE. simplify_eq. rewrite two_runs_fresh by done.
    by rewrite (left_id_L ∅ (∪) (list_to_set (raw1 ++ raw2))).
  - cbn in HE. simplify_eq. rewrite two_runs_fresh by done.
    by rewrite (left_id_L ∅ (∪) (list_to_set (raw1 ++ raw2))).
  - rewrite read_ledger_written in HE. simplify_eq.
    by rewrite two_runs_written.
Qed.

Lemma X7_witness :
  ∃ n1 t1 f1 n2 total f2,
    export_entries ["A"; "B"] None = (Exported n1 t1, f1)
    ∧ export_entries ["B"; "C"] f1 = (Exported n2 total, f2)
    ∧ export_entries (["A"; "B"] ++ ["B"; "C"]) None
      = (Exported (n1 + n2) total, f2).
Proof.
  apply (X7_two_runs_as_one ["A"; "B"] ["B"; "C"] None).
  left. reflexivity.
Defined.

(** ** The playlist id of a well-formed URL *)

Section well_formed_url.
Implicit Types (s t p sep a b x : string) (c : ascii).


Lemma contains_tail sep c s :
  PyStr.contains sep (String c s) = false → PyStr.contains sep s = false.
Proof. cbn [PyStr.contains]. by intros [_ ?]%orb_false_elim. Qed.

Lemma contains_prefix_false sep s :
  PyStr.contains sep s = false → String.prefix sep s = false.
Proof.
  destruct s; cbn [PyStr.contains]; by intros [? _]%orb_false_elim.
Qed.

Lemma prefix_app_le p : ∀ u v,
  String.prefix p (u +:+ v) = true → String.length p ≤ String.length u →
  String.prefix p u = true.
Proof.
  induction p as [|c p IH]; intros u v Hp Hlen; [by destruct u|].
  destruct u as [|c' u]; [simpl in Hlen; lia|].
  rewrite str_app_cons in Hp. simpl in Hp |- *.
  destruct (ascii_dec c c'); [|done].
  apply (IH u v Hp). simpl in Hlen. lia.
Qed.

(** [prefix p (x +:+ String c t)]: [p] ends inside [x], or holds [c]. *)
Lemma prefix_app_char p : ∀ x c t,
  String.prefix p (x +:+ String c t) = true →
  String.prefix p x = true ∨ PyStr.contains (String c "") p = true.
Proof.
  induction p as [|c0 p IH]; intros x c t Hp; [left; by destruct x|].
  destruct x as [|c' x].
  - rewrite str_app_nil_l in Hp. simpl in Hp.
    destruct (ascii_dec c0 c) as [->|]; [|done]. right.
    cbn [PyStr.contains]. apply orb_true_iff. left.
    apply prefix_spec. by exists p.
  - rewrite str_app_cons in Hp. simpl in Hp |- *.
    destruct (ascii_dec c0 c'); [|done].
    destruct (IH x c t Hp) as [?|Hc]; [by left|]. right.
    cbn [PyStr.contains]. apply orb_true_iff. by right.
Qed.

(** The first occurrence of [sep] is the one written out, when [sep] does
    not start earlier. *)
Lemma partition_first init l a b :
  PyStr.contains (init +:+ String l "") (a +:+ init) = false →
  StrSpec.partition (init +:+ String l "") (a +:+ (init +:+ String l "") +:+ b)
  = Some (a, b).
Proof.
  set (sep := init +:+ String l ""). induction a as [|c a IH]; intros Hc.
  - rewrite str_app_nil_l.
    destruct (sep +:+ b) eqn:Hs; cbn [StrSpec.partition]; rewrite <- Hs;
      by rewrite prefix_app, drop_app.
  - rewrite str_app_cons. cbn [StrSpec.partition].
    rewrite <- str_app_cons.
    destruct (String.prefix sep (String c a +:+ sep +:+ b)) eqn:Hp.
    + exfalso. unfold sep in Hp at 2.
      rewrite str_app_assoc, <- (str_app_assoc (String c a) init) in Hp.
      apply prefix_app_le in Hp.
      * apply contains_prefix_false in Hc. congruence.
      * unfold sep. rewrite !str_length_app. simpl. lia.
    + rewrite str_app_cons in Hc. apply contains_tail in Hc.
      by rewrite (IH Hc).
Qed.

(** Past a stretch that [sep] cannot start in: [x], free of [sep], then a
    character that [sep] does not hold. *)
Lemma partition_skip sep x c t :
  PyStr.contains sep x = false → PyStr.contains (String c "") sep = false →
  StrSpec.partition sep (x +:+ String c t)
  = match StrSpec.partition sep t with
    | Some (a, b) => Some (x +:+ String c a, b)
    | None => None
    end.
Proof.
  intros Hx Hc.
  assert (∀ y, PyStr.contains sep y = false →
               String.prefix sep (y +:+ String c t) = false) as Hno.
  { intros y Hy. destruct (String.prefix sep (y +:+ String c t)) eqn:Hp; [|done].
    apply prefix_app_char in Hp as [Hp|Hp]; [|congruence].
    apply contains_prefix_false in Hy. congruence. }
  induction x as [|c' x IH].
  - rewrite str_app_nil_l. cbn [StrSpec.partition].
    assert (String.prefix sep (String c t) = false) as ->
      by exact (Hno "" Hx).
    by destruct (StrSpec.partition sep t) as [[??]|].
  - rewrite str_app_cons. cbn [StrSpec.partition].
    assert (String.prefix sep (String c' (x +:+ String c t)) = false) as ->
      by exact (Hno _ Hx).
    rewrite (IH (contains_tail _ _ _ Hx)).
    by destruct (StrSpec.partition sep t) as [[??]|].
Qed.

Lemma before_no_occurrence sep s :
  PyStr.contains sep s = false → StrSpec.before sep s = s.
Proof.
  intros H. unfold StrSpec.before.
  by apply partition_None in H as ->.
Qed.



End well_formed_url.

(** X8.  For a URL made of any text without [playlist/], then
    [open.spotify.com/playlist/], then an id that holds neither [?] nor
    [playlist/], then nothing or a query string that starts with [?], the
    id extracted is that id, whatever the query string holds. *)
Theorem X8_well_formed_url (base playlist_id tail : string) :
  PyStr.contains "playlist/" (base +:+ "open.spotify.com/playlist") = false →
  PyStr.contains "playlist/" playlist_id = false →
  PyStr.contains "?" playlist_id = false →
  tail = "" ∨ String.prefix "?" tail = true →
  playlist_id_of
    (base +:+ "open.spotify.com/playlist/" +:+ playlist_id +:+ tail)
  = inr playlist_id.
Proof.
  intros Hbase Hsep Hq Htail.
  set (url := base +:+ "open.spotify.com/playlist/" +:+ playlist_id +:+ tail).
  assert (PyStr.contains "open.spotify.com/playlist/" url = true) as Hc.
  { apply contains_spec. by exists base, (playlist_id +:+ tail). }
  destruct (playlist_id_of_valid url Hc) as (pre & rest & Hp & _ & ->).
  assert (StrSpec.partition "playlist/" url
          = Some (base +:+ "open.spotify.com/", playlist_id +:+ tail)) as Hp'.
  { unfold url.
    change "open.spotify.com/playlist/"
      with ("open.spotify.com/" +:+ ("playlist" +:+ String "/" "")).
    rewrite (str_app_assoc "open.spotify.com/"),
      <- (str_app_assoc base "open.spotify.com/").
    apply (partition_first "playlist" "/").
    by rewrite str_app_assoc. }
  rewrite Hp' in Hp. simplify_eq. f_equal.
  destruct Htail as [->|[t ->]%prefix_spec].
  - rewrite str_app_nil_r.
    by rewrite (before_no_occurrence "playlist/"), before_no_occurrence.
  - change ("?" +:+ t) with (String "?" t).
    assert (∃ w, StrSpec.before "playlist/" (playlist_id +:+ String "?" t)
                 = playlist_id +:+ String "?" w) as [w ->].
    { unfold StrSpec.before. rewrite partition_skip by done.
      destruct (StrSpec.partition "playlist/" t) as [[a b]|]; eauto. }
    unfold StrSpec.before.
    change (String "?" w) with (("" +:+ String "?" "") +:+ w).
    rewrite (partition_first "" "?"); [done|]. by rewrite str_app_nil_r.
Qed.

Lemma X8_witness :
  playlist_id_of
    ("https://" +:+ "open.spotify.com/playlist/" +:+ "37i9dQ"
     +:+ "?si=playlist/1?x")
  = inr "37i9dQ".
Proof.
  apply (X8_well_formed_url "https://" "37i9dQ" "?si=playlist/1?x");
    [reflexivity|reflexivity|reflexivity|right; reflexivity].
Defined.



(** ** The header that is skipped *)

Section first_record.
Import Csv TextIO.

Lemma process_eol_state r r' :
  parse_process_char r EOL = Some r' →
  state r' = START_RECORD ∨ state r' = IN_QUOTED_FIELD.
Proof. destruct r as [[] fd fs]; intros [= <-]; cbn; auto. Qed.

Lemma at_end_in_quoted r rows :
  state r = IN_QUOTED_FIELD → at_end r = Some rows → rows ≠ [].
Proof.
  unfold at_end, unfinished. intros ->. rewrite orb_true_r.
  by intros [= <-].
Qed.

Lemma scan_not_nil s : ∀ r partial rows,
  scan r partial s = Some rows →
  s ≠ "" ∨ partial = true ∨ state r = IN_QUOTED_FIELD →
  rows ≠ [].
Proof.
  induction s as [|c s IH]; intros r partial rows Hscan Hcase.
  - cbn [scan] in Hscan. destruct partial.
    + destruct (parse_process_char r EOL) as [r2|] eqn:H2; [|done].
      cbn [mbind option_bind] in Hscan.
      destruct (process_eol_state _ _ H2) as [Hs|Hs]; rewrite Hs in Hscan.
      * by simplify_eq.
      * by eapply at_end_in_quoted.
    + destruct Hcase as [?|[?|Hs]]; [done..|]. by eapply at_end_in_quoted.
  - cbn [scan] in Hscan.
    destruct (parse_process_char r (Char c)) as [r1|]; [|done].
    cbn [mbind option_bind] in Hscan. destruct (ends_line c s).
    + destruct (parse_process_char r1 EOL) as [r2|] eqn:H2; [|done].
      cbn [mbind option_bind] in Hscan.
      destruct (process_eol_state _ _ H2) as [Hs|Hs]; rewrite Hs in Hscan.
      * destruct (scan parse_reset false s); cbn in Hscan; by simplify_eq.
      * eapply IH; eauto.
    + eapply IH; eauto.
Qed.

End first_record.

(** X10.  A file that is not empty always has a first record for the
    reader to yield, be it an empty one: when the file exists and is not
    empty, [next(reader, None)] on line 111 consumes a record and never
    falls back on its default.  The text of size zero has no record. *)
Theorem X10_first_record (text : string) :
  csv_reader "" = Some []
  ∧ (text ≠ "" → ∃ first rows, csv_reader text = Some (first :: rows)).
Proof.
  split; [done|]. intros Hne.
  destruct (csv_reader_total text) as [rows Hrows].
  destruct rows as [|first rows]; [|eauto].
  rewrite csv_reader_scan in Hrows.
  apply scan_not_nil in Hrows; [done|by left].
Qed.

Lemma X10_witness :
  ∃ first rows, csv_reader (String Csv.LF "") = Some (first :: rows).
Proof.
  apply (proj2 (X10_first_record (String Csv.LF ""))). discriminate.
Defined.

(** ** The texts of the indices *)

Section index_texts.

Lemma to_int_not_nil z :
  Z.to_int z ≠ Decimal.Pos Decimal.Nil ∧ Z.to_int z ≠ Decimal.Neg Decimal.Nil.
Proof.
  destruct z as [|p|p]; cbn; split; try done;
    intros [= H]; by apply DecimalPos.Unsigned.to_uint_nonnil in H.
Qed.

Lemma str_int_inj a b : PyStr.str_int a = PyStr.str_int b → a = b.
Proof.
  unfold PyStr.str_int. intros H.
  apply (f_equal NilZero.int_of_string) in H.
  destruct (to_int_not_nil a), (to_int_not_nil b).
  rewrite !NilZero.isi in H by done.
  apply DecimalZ.to_int_inj. by simplify_eq.
Qed.

Lemma first_column (g : nat → nat) (ds : list string) :
  omap (λ row : list string, row !! 0)
    (imap (λ i d, [PyStr.str_int (Z.of_nat (g i)); d]) ds)
  = (λ i, PyStr.str_int (Z.of_nat (g i))) <$> seq 0 (length ds).
Proof.
  revert g. induction ds as [|d ds IH]; intros g; [done|].
  pose proof (IH (g ∘ S)) as H. rewrite imap_cons. cbn in *. f_equal.
  etrans; [exact H|]. by rewrite <- fmap_S_seq, <- list_fmap_compose.
Qed.

Lemma indexed_first_column ds :
  omap (λ row : list string, row !! 0) (indexed ds)
  = (λ i, PyStr.str_int (Z.of_nat (S i))) <$> seq 0 (length ds).
Proof. apply (first_column S). Qed.

End index_texts.

(** X11.  Different indices are written as different texts, so in the file
    that runs starting with no file have built no two rows carry the same
    text in the index column, and every row has one. *)
Theorem X11_index_column (runs : list (client * string)) (text : string) :
  (∀ a b, PyStr.str_int a = PyStr.str_int b → a = b)
  ∧ (foldl run None runs = Some text →
     ∃ rows,
       csv_reader text = Some (header :: rows)
       ∧ length (omap (λ row : list string, row !! 0) rows) = length rows
       ∧ NoDup (omap (λ row : list string, row !! 0) rows)).
Proof.
  split; [apply str_int_inj|]. intros Hruns.
  destruct (runs_inv runs None) as [H|(ds & Hds & H)]; [by left|congruence|].
  rewrite Hruns in H. simplify_eq. exists (indexed ds).
  split; [apply csv_reader_writerows_all|].
  rewrite indexed_first_column. split.
  - unfold indexed. by rewrite length_fmap, length_seq, length_imap.
  - apply NoDup_fmap_2_strong; [|apply NoDup_seq].
    intros i j _ _ Hij. apply str_int_inj in Hij. lia.
Qed.

Lemma X11_witness :
  ∃ rows,
    csv_reader
      (writerows [ header; ["1"; "A - x"]; ["2"; "B - y"]; ["3"; "C - z"] ])
    = Some (header :: rows)
    ∧ length (omap (λ row : list string, row !! 0) rows) = length rows
    ∧ NoDup (omap (λ row : list string, row !! 0) rows).
Proof.
  apply (proj2 (X11_index_column [(sp_example, url_example)]
    (writerows [ header; ["1"; "A - x"]; ["2"; "B - y"]; ["3"; "C - z"] ]))).
  vm_compute. reflexivity.
Defined.

(** ** Splitting and joining *)

Section split_join.
Implicit Types (s sep : string).

Lemma split_cons_inv sep s : sep ≠ "" → ∃ x l, PyStr.split sep s = x :: l.
Proof.
  intros. rewrite split_partition by done.
  destruct (StrSpec.partition sep s) as [[??]|]; eauto.
Qed.

Lemma join_split_length sep n : sep ≠ "" → ∀ s,
  String.length s < n → PyStr.join sep (PyStr.split sep s) = s.
Proof.
  intros Hsep. induction n as [|n IH]; intros s Hlen; [lia|].
  rewrite split_partition by done.
  destruct (StrSpec.partition sep s) as [[a b]|] eqn:Hp; [|done].
  apply partition_Some in Hp as [-> _].
  destruct (split_cons_inv sep b Hsep) as (x & l & Hb).
  pose proof (IH b) as Hjoin. rewrite Hb in Hjoin |- *.
  change (PyStr.join sep (a :: x :: l))
    with (a +:+ sep +:+ PyStr.join sep (x :: l)).
  rewrite Hjoin; [done|].
  rewrite !str_length_app in Hlen.
  assert (String.length sep ≠ 0) by (by destruct sep). lia.
Qed.

End split_join.

(** X12.  Joining the pieces of [s.split(sep)] with [sep] gives [s] back,
    for every non-empty separator: the split of the URL on line 72 loses
    nothing, and there is always a piece 0. *)
Theorem X12_join_split (sep s : string) :
  sep ≠ "" →
  PyStr.join sep (PyStr.split sep s) = s
  ∧ ∃ first pieces, PyStr.split sep s = first :: pieces.
Proof.
  intros Hsep. split; [|by apply split_cons_inv].
  by apply (join_split_length sep (S (String.length s)) Hsep); lia.
Qed.

Lemma X12_witness :
  PyStr.join "playlist/" (PyStr.split "playlist/" url_example) = url_example
  ∧ ∃ first pieces, PyStr.split "playlist/" url_example = first :: pieces.
Proof. apply (X12_join_split "playlist/" url_example). discriminate. Defined.

(** ** Repeats and descriptors that coincide *)

Section repeats.
Implicit Types (E F : gset string) (raw l : list string).

Lemma first_new_first_new l : ∀ E F,
  first_new E (first_new F l) = first_new (E ∪ F) l.
Proof.
  induction l as [|x l IH]; intros E F; [done|].
  rewrite (first_new_cons x l F), (first_new_cons x l (E ∪ F)).
  destruct (decide (x ∈ F)) as [HF|HF].
  - rewrite decide_True by set_solver. apply IH.
  - rewrite first_new_cons. destruct (decide (x ∈ E)) as [HE|HE].
    + rewrite decide_True by set_solver. rewrite IH. f_equal. set_solver.
    + rewrite decide_False by set_solver. rewrite IH. do 2 f_equal.
      set_solver.
Qed.

(** A run depends on the batch through its first occurrences only. *)
Lemma export_entries_first_new raw f :
  export_entries (first_new ∅ raw) f = export_entries raw f.
Proof.
  destruct (read_ledger_total f) as [E HE].
  rewrite !(export_entries_eq f _ E HE).
  rewrite first_new_first_new, (right_id_L ∅ (∪)).
  replace (E ∪ list_to_set (first_new ∅ raw)) with (E ∪ list_to_set raw);
    [done|].
  pose proof (list_to_set_first_new raw ∅) as H. set_solver.
Qed.

Lemma join_two (a b : string) :
  PyStr.join ", " [a +:+ ", " +:+ b] = PyStr.join ", " [a; b].
Proof. done. Qed.

End repeats.

(** X13.  Repeats inside the batch never change a run: the batch with only
    the first occurrence of each descriptor kept gives the same report and
    the same file, whatever the file is. *)
Theorem X13_repeats_ignored (raw : list string) (f : file) :
  export_entries raw f = export_entries (first_new ∅ raw) f
  ∧ NoDup (first_new ∅ raw)
  ∧ ∀ x, x ∈ first_new ∅ raw ↔ x ∈ raw.
Proof.
  split; [by rewrite export_entries_first_new|].
  split; [apply first_new_NoDup|].
  intros x. rewrite first_new_elem_of. set_solver.
Qed.

(** X14.  The descriptor does not tell apart a track of two artists [a] and
    [b] from a track of the same name whose one artist is called [a, b]:
    both get the descriptor [name - a, b], and when a playlist holds both,
    the second is taken for a repeat of the first and is not exported. *)
Theorem X14_descriptors_coincide (name a b : string) (tracks : list fetched)
    (f : file) :
  descriptor (Fetched name [a +:+ ", " +:+ b]) = descriptor (Fetched name [a; b])
  ∧ export_tracks
      (to_item <$> Fetched name [a; b] :: Fetched name [a +:+ ", " +:+ b]
                   :: tracks) f
    = export_tracks (to_item <$> Fetched name [a; b] :: tracks) f.
Proof.
  split; [done|]. unfold export_tracks.
  rewrite !track_data_raw_fetched. cbn [omap list_omap descriptor].
  rewrite join_two.
  set (d := name +:+ " - " +:+ PyStr.join ", " [a; b]).
  set (ds := list_omap _ _ descriptor tracks).
  rewrite <- (export_entries_first_new (d :: d :: ds)),
    <- (export_entries_first_new (d :: ds)).
  f_equal. rewrite !first_new_cons.
  rewrite !decide_False by set_solver. rewrite decide_True by set_solver.
  done.
Qed.

(** ** The caller: stripping the line that was typed *)

Section strip.
Implicit Types (s t w e r a b : string) (W : list string).

Lemma after_first_Some W s r :
  after_first W s = Some r → ∃ e, e ∈ W ∧ s = e +:+ r.
Proof.
  induction W as [|w W IH]; [done|]. cbn [after_first].
  destruct (String.prefix w s) eqn:Hp.
  - intros [= <-]. exists w. split; [left|]. by apply prefix_drop.
  - intros (e & ? & ?)%IH. exists e. split; [by right|done].
Qed.

Lemma after_first_None W s e :
  after_first W s = None → e ∈ W → String.prefix e s = false.
Proof.
  induction W as [|w W IH]; [by intros _ ?%elem_of_nil|]. cbn [after_first].
  destruct (String.prefix w s) eqn:Hp; [done|].
  intros HN [->|?]%elem_of_cons; [done|]. by apply IH.
Qed.

Lemma after_first_is_Some W s e :
  e ∈ W → String.prefix e s = true → is_Some (after_first W s).
Proof.
  intros He Hp. destruct (after_first W s) eqn:H; [eauto|].
  rewrite (after_first_None W s e H He) in Hp. done.
Qed.

Lemma prefix_app_r e s t :
  String.prefix e s = true → String.prefix e (s +:+ t) = true.
Proof.
  intros [x ->]%prefix_spec. rewrite str_app_assoc. apply prefix_app.
Qed.

Lemma encodings_ok_true : encodings_ok = true.
Proof. vm_compute. reflexivity. Qed.

Lemma whitespace_facts e e' :
  e ∈ whitespace → e' ∈ whitespace →
  e ≠ ""
  ∧ (String.prefix e' e = true → e' = e)
  ∧ ∀ c0 rest c rest', e = String c0 rest → e' = String c rest' →
      PyStr.contains (String c "") rest = false.
Proof.
  intros He He'. pose proof encodings_ok_true as H. unfold encodings_ok in H.
  rewrite forallb_forall in H. apply list_elem_of_In in He, He'.
  specialize (H e He). apply andb_true_iff in H as [Hne H].
  rewrite forallb_forall in H. specialize (H e' He').
  apply andb_true_iff in H as [Hpre Hin].
  split; [|split].
  - intros ->. done.
  - intros Hp. rewrite Hp in Hpre. by apply String.eqb_eq in Hpre.
  - intros c0 rest c rest' -> ->. by apply negb_true_iff in Hin.
Qed.

Lemma whitespace_length e : e ∈ whitespace → String.length e ≠ 0.
Proof.
  intros He. destruct (whitespace_facts e e He He) as [? _]. by destruct e.
Qed.

Lemma prefix_of_both a b s :
  String.prefix a s = true → String.prefix b s = true →
  String.length a ≤ String.length b → String.prefix a b = true.
Proof.
  intros Ha [y ->]%prefix_spec Hlen. by apply (prefix_app_le a b y).
Qed.

(** A code point of [whitespace] that starts [e +:+ r] is [e]. *)
Lemma whitespace_prefix_free e e' r :
  e ∈ whitespace → e' ∈ whitespace →
  String.prefix e' (e +:+ r) = true → e' = e.
Proof.
  intros He He' Hp.
  destruct (decide (String.length e' ≤ String.length e)) as [Hle|Hgt].
  - apply (whitespace_facts e e' He He'). by apply (prefix_app_le e' e r).
  - symmetry. apply (whitespace_facts e' e He' He).
    apply (prefix_of_both e e' (e +:+ r)); [apply prefix_app|done|lia].
Qed.

Lemma after_first_whitespace e r :
  e ∈ whitespace → after_first whitespace (e +:+ r) = Some r.
Proof.
  intros He.
  destruct (after_first_is_Some whitespace (e +:+ r) e He (prefix_app e r))
    as [r' Hr'].
  rewrite Hr'. apply after_first_Some in Hr' as (e' & He' & Heq).
  assert (e' = e) as ->.
  { apply (whitespace_prefix_free e e' r He He').
    rewrite Heq. apply prefix_app. }
  f_equal. symmetry. by apply (str_app_inv_head e).
Qed.

(** A code point of [whitespace] that starts [t +:+ w], where [w] is empty
    or starts with one, starts [t]. *)
Lemma whitespace_no_straddle e t w :
  e ∈ whitespace → t ≠ "" →
  w = "" ∨ is_Some (after_first whitespace w) →
  String.prefix e (t +:+ w) = true → String.prefix e t = true.
Proof.
  intros He Ht Hw Hp.
  destruct (decide (String.length e ≤ String.length t)) as [Hle|Hgt];
    [by apply (prefix_app_le e t w)|].
  destruct Hw as [->|[r Hr]]; [by rewrite str_app_nil_r in Hp|].
  exfalso. apply after_first_Some in Hr as (e' & He' & ->).
  apply prefix_spec in Hp as [z Hz].
  apply str_app_eq_split in Hz as (d & Hd & Hw); [|lia].
  destruct t as [|c0 t]; [done|].
  destruct d as [|c d].
  { rewrite str_app_nil_r in Hd. subst e. lia. }
  destruct e' as [|c' e'].
  { by destruct (whitespace_facts "" "" He' He') as [? _]. }
  rewrite !str_app_cons in Hw. simplify_eq.
  rewrite str_app_cons in He.
  destruct (whitespace_facts _ _ He He') as (_ & _ & Hno).
  specialize (Hno c0 (t +:+ String c d) c e' eq_refl eq_refl).
  assert (PyStr.contains (String c "") (t +:+ String c d) = true);
    [|congruence].
  apply contains_spec. by exists t, d.
Qed.

(** *** [lstrip] *)

Lemma lstrip_go_fuel n : ∀ m s,
  String.length s ≤ n → String.length s ≤ m →
  lstrip_go n s = lstrip_go m s.
Proof.
  induction n as [|n IH]; intros m s Hn Hm.
  - destruct s; [|simpl in Hn; lia]. by destruct m.
  - destruct m as [|m].
    { destruct s; [done|simpl in Hm; lia]. }
    cbn [lstrip_go].
    destruct (after_first whitespace s) as [r|] eqn:Hr; [|done].
    apply after_first_Some in Hr as (e & He & ->).
    rewrite str_length_app in Hn, Hm.
    assert (String.length e ≠ 0).
    { destruct (whitespace_facts e e He He) as [? _]. by destruct e. }
    apply IH; lia.
Qed.

Lemma lstrip_unfold s :
  lstrip s
  = match after_first whitespace s with
    | Some r => lstrip r
    | None => s
    end.
Proof.
  unfold lstrip. destruct s as [|c s]; [done|].
  cbn [String.length lstrip_go].
  destruct (after_first whitespace (String c s)) as [r|] eqn:Hr; [|done].
  apply after_first_Some in Hr as (e & He & Heq).
  apply lstrip_go_fuel; [|done].
  apply (f_equal String.length) in Heq. rewrite str_length_app in Heq.
  simpl in Heq. assert (String.length e ≠ 0); [|lia].
  destruct (whitespace_facts e e He He) as [? _]. by destruct e.
Qed.

Lemma lstrip_stops_length n : ∀ s,
  String.length s < n → after_first whitespace (lstrip s) = None.
Proof.
  induction n as [|n IH]; intros s Hlen; [lia|].
  rewrite lstrip_unfold.
  destruct (after_first whitespace s) as [r|] eqn:Hr; [|done].
  apply IH. apply after_first_Some in Hr as (e & He & ->).
  rewrite str_length_app in Hlen.
  assert (String.length e ≠ 0); [|lia].
  destruct (whitespace_facts e e He He) as [? _]. by destruct e.
Qed.

(** What [lstrip] leaves starts with no space. *)
Lemma lstrip_stops s : after_first whitespace (lstrip s) = None.
Proof. apply (lstrip_stops_length (S (String.length s))). lia. Qed.

Lemma lstrip_None s : after_first whitespace s = None → lstrip s = s.
Proof. intros H. by rewrite lstrip_unfold, H. Qed.

Lemma all_space_spaces_length n : ∀ s,
  String.length s < n → all_space s = true → spaces s.
Proof.
  induction n as [|n IH]; intros s Hlen Hs; [lia|].
  unfold all_space in Hs. rewrite lstrip_unfold in Hs.
  destruct (after_first whitespace s) as [r|] eqn:Hr.
  - apply after_first_Some in Hr as (e & He & ->). constructor; [done|].
    apply IH; [|done]. rewrite str_length_app in Hlen.
    pose proof (whitespace_length e He). lia.
  - apply String.eqb_eq in Hs as ->. constructor.
Qed.

Lemma all_space_spaces s : all_space s = true ↔ spaces s.
Proof.
  split; [apply (all_space_spaces_length (S (String.length s))); lia|].
  induction 1 as [|e r He _ IH]; [done|].
  unfold all_space in *. by rewrite lstrip_unfold, after_first_whitespace.
Qed.

Lemma spaces_app w1 w2 : spaces w1 → spaces w2 → spaces (w1 +:+ w2).
Proof.
  induction 1 as [|e r He _ IH]; intros Hw2; [done|].
  rewrite str_app_assoc. constructor; [done|]. by apply IH.
Qed.

Lemma spaces_start w : spaces w → w = "" ∨ is_Some (after_first whitespace w).
Proof.
  destruct 1 as [|e r He _]; [by left|]. right.
  by rewrite after_first_whitespace.
Qed.

(** Spaces in front are removed along with those of the string. *)
Lemma lstrip_spaces w s : spaces w → lstrip (w +:+ s) = lstrip s.
Proof.
  induction 1 as [|e r He _ IH]; [done|].
  by rewrite str_app_assoc, lstrip_unfold, after_first_whitespace.
Qed.

(** Spaces behind do not change where [lstrip] stops. *)
Lemma lstrip_app_spaces_length n : ∀ s w,
  String.length s < n → spaces w → lstrip s ≠ "" →
  lstrip (s +:+ w) = lstrip s +:+ w.
Proof.
  induction n as [|n IH]; intros s w Hlen Hw Hne; [lia|].
  rewrite (lstrip_unfold s) in Hne |- *. rewrite (lstrip_unfold (s +:+ w)).
  destruct (after_first whitespace s) as [r|] eqn:Hr.
  - apply after_first_Some in Hr as (e & He & ->).
    rewrite str_app_assoc, after_first_whitespace by done.
    apply IH; [|done..]. rewrite str_length_app in Hlen.
    pose proof (whitespace_length e He). lia.
  - destruct (after_first whitespace (s +:+ w)) as [r|] eqn:Hr'; [|done].
    exfalso. apply after_first_Some in Hr' as (e & He & Heq).
    assert (String.prefix e s = true) as Hp.
    { apply (whitespace_no_straddle e s w He Hne (spaces_start w Hw)).
      rewrite Heq. apply prefix_app. }
    by rewrite (after_first_None _ _ _ Hr He) in Hp.
Qed.

(** *** [rstrip] *)

Lemma all_space_app_inv_length n : ∀ t w,
  String.length t < n → spaces w → spaces (t +:+ w) → spaces t.
Proof.
  induction n as [|n IH]; intros t w Hlen Hw Htw; [lia|].
  destruct (decide (t = "")) as [->|Hne]; [constructor|].
  apply all_space_spaces in Htw. unfold all_space in Htw.
  rewrite lstrip_unfold in Htw.
  destruct (after_first whitespace (t +:+ w)) as [r|] eqn:Hr.
  - apply after_first_Some in Hr as (e & He & Heq).
    assert (String.prefix e t = true) as Hp.
    { apply (whitespace_no_straddle e t w He Hne (spaces_start w Hw)).
      rewrite Heq. apply prefix_app. }
    apply prefix_spec in Hp as [t' ->]. rewrite str_app_assoc in Heq.
    apply str_app_inv_head in Heq as <-. constructor; [done|].
    apply (IH t' w); [|done|by apply all_space_spaces].
    rewrite str_length_app in Hlen. pose proof (whitespace_length e He). lia.
  - apply String.eqb_eq in Htw. by destruct t.
Qed.

Lemma all_space_app t w :
  spaces w → all_space (t +:+ w) = all_space t.
Proof.
  intros Hw. apply eq_true_iff_eq. rewrite !all_space_spaces. split.
  - apply (all_space_app_inv_length (S (String.length t))); [lia|done].
  - intros Ht. by apply spaces_app.
Qed.

(** Spaces behind are removed along with those of the string. *)
Lemma rstrip_spaces s w : spaces w → rstrip (s +:+ w) = rstrip s.
Proof.
  intros Hw. induction s as [|c s IH].
  - rewrite str_app_nil_l.
    apply all_space_spaces in Hw. destruct w; cbn [rstrip]; by rewrite ?Hw.
  - rewrite str_app_cons. cbn [rstrip]. rewrite <- str_app_cons.
    by rewrite all_space_app, IH.
Qed.

Lemma rstrip_decomp s : ∃ w, s = rstrip s +:+ w ∧ spaces w.
Proof.
  induction s as [|c s (w & Hs & Hw)].
  - exists "". split; [done|constructor].
  - cbn [rstrip]. destruct (all_space (String c s)) eqn:Ha.
    + exists (String c s). split; [done|by apply all_space_spaces].
    + exists w. split; [|done]. by rewrite str_app_cons, <- Hs.
Qed.

(** What [rstrip] leaves ends with no space. *)
Lemma rstrip_clean s : ∀ a b,
  rstrip s = a +:+ b → b ≠ "" → all_space b = false.
Proof.
  induction s as [|c s IH]; intros a b Hab Hb.
  - by destruct a, b.
  - cbn [rstrip] in Hab. destruct (all_space (String c s)) eqn:Ha.
    { by destruct a, b. }
    destruct a as [|c' a].
    + rewrite str_app_nil_l in Hab. subst b.
      destruct (rstrip_decomp s) as (w & Hs & Hw).
      rewrite <- (all_space_app _ w Hw), str_app_cons, <- Hs. done.
    + rewrite str_app_cons in Hab. simplify_eq. by apply (IH a).
Qed.

Lemma rstrip_id t :
  (∀ a b, t = a +:+ b → b ≠ "" → all_space b = false) → rstrip t = t.
Proof.
  induction t as [|c t IH]; intros H; [done|].
  cbn [rstrip]. rewrite (H "" (String c t)) by done. f_equal.
  apply IH. intros a b -> Hb. by apply (H (String c a) b).
Qed.

(** *** [strip] *)

Lemma strip_padding w1 s w2 :
  spaces w1 → spaces w2 → strip (w1 +:+ s +:+ w2) = strip s.
Proof.
  intros H1 H2. unfold strip. rewrite lstrip_spaces by done.
  destruct (decide (lstrip s = "")) as [He|Hne].
  - assert (spaces (s +:+ w2)) as Hs.
    { apply spaces_app; [|done]. apply all_space_spaces.
      unfold all_space. by rewrite He. }
    apply all_space_spaces in Hs. unfold all_space in Hs.
    apply String.eqb_eq in Hs. by rewrite Hs, He.
  - rewrite (lstrip_app_spaces_length (S (String.length s))) by (done || lia).
    by apply rstrip_spaces.
Qed.

Lemma strip_starts s : after_first whitespace (strip s) = None.
Proof.
  unfold strip. destruct (rstrip_decomp (lstrip s)) as (w & Hs & _).
  destruct (after_first whitespace (rstrip (lstrip s))) as [r|] eqn:Hr; [|done].
  apply after_first_Some in Hr as (e & He & Heq).
  pose proof (lstrip_stops s) as Hstop.
  rewrite Hs, Heq, str_app_assoc in Hstop.
  by rewrite after_first_whitespace in Hstop.
Qed.

Lemma strip_strip s : strip (strip s) = strip s.
Proof.
  unfold strip at 1. rewrite (lstrip_None _ (strip_starts s)).
  apply rstrip_id. apply rstrip_clean.
Qed.

End strip.


Example strip_ex :
  strip (utf8 [32; 9; 97; 32; 98; 13; 10]) = "a b"
  ∧ strip (utf8 [226; 128; 168; 97; 194; 160]) = "a"
  ∧ strip (utf8 [226; 128; 144; 32]) = utf8 [226; 128; 144]
  ∧ strip (utf8 [197; 160; 32]) = utf8 [197; 160]
  ∧ strip (utf8 [32; 227; 128; 128; 10]) = ""
  ∧ lstrip (utf8 [32; 97; 32]) = "a "
  ∧ rstrip (utf8 [32; 97; 32]) = " a".
Proof. repeat split; vm_compute; reflexivity. Qed.

(** X15.  Spaces around the line that was typed do not change the run: the
    URL that [strip] hands to [extract_playlist_tracks] is the same with and
    without white space (of any of the kinds of [str.isspace]) in front of
    the line and behind it. *)
Theorem X15_padding_ignored (w1 line w2 : string) :
  all_space w1 = true → all_space w2 = true →
  strip (w1 +:+ line +:+ w2) = strip line
  ∧ ∀ sp f, main_block sp f (w1 +:+ line +:+ w2) = main_block sp f line.
Proof.
  intros H1%all_space_spaces H2%all_space_spaces.
  assert (strip (w1 +:+ line +:+ w2) = strip line) as Heq
    by by apply strip_padding.
  split; [done|]. intros sp f. unfold main_block. by rewrite Heq.
Qed.

Lemma X15_witness :
  strip (utf8 [32; 9] +:+ url_example +:+ utf8 [194; 160; 13; 10])
  = strip url_example.
Proof.
  apply (X15_padding_ignored (utf8 [32; 9]) url_example
           (utf8 [194; 160; 13; 10])); reflexivity.
Defined.

(** X16.  The URL handed to [extract_playlist_tracks] neither starts nor
    ends with white space: no white-space code point starts it, and no
    part of it that reaches its end is made of white space only.  A line
    that is already so is handed over unchanged, and stripping twice is
    stripping once. *)
Theorem X16_strip_clean (line : string) :
  after_first whitespace (strip line) = None
  ∧ (∀ a b, strip line = a +:+ b → b ≠ "" → all_space b = false)
  ∧ strip (strip line) = strip line
  ∧ (after_first whitespace line = None →
     (∀ a b, line = a +:+ b → b ≠ "" → all_space b = false) →
     strip line = line)
  ∧ ∀ sp f, main_block sp f (strip line) = main_block sp f line.
Proof.
  split; [apply strip_starts|]. split; [apply rstrip_clean|].
  split; [apply strip_strip|]. split.
  - intros Hstart Hend. unfold strip. rewrite (lstrip_None _ Hstart).
    by apply rstrip_id.
  - intros sp f. unfold main_block. by rewrite strip_strip.
Qed.

Lemma X16_witness : strip "a" = "a".
Proof.
  apply (proj1 (proj2 (proj2 (proj2 (X16_strip_clean "a"))))).
  - reflexivity.
  - intros a b Hab Hb. destruct a as [|c a].
    + rewrite str_app_nil_l in Hab. subst b. reflexivity.
    + rewrite str_app_cons in Hab. injection Hab as _ Hab.
      destruct a; [|discriminate]. rewrite str_app_nil_l in Hab. by subst b.
Defined.
